(** * Free-flight sampling and event probabilities of [mitsuba::Medium]

    A shallow embedding of [include/mitsuba/render/medium.h].  The three
    event-probability heuristics [medium_probabilities_analog],
    [medium_probabilities_max] and [medium_probabilities_mean] are translated
    from the header.  [get_interaction_probabilities], [sample_interaction]
    and [transmittance_eval_pdf], which the header only declares, follow the
    specification's description of them.  The pure virtual members
    [intersect_aabb], [get_majorant] and [get_scattering_coefficients] are
    parameters of a medium. *)

From Stdlib Require Import Reals Lra List Bool Arith Lia.
Import ListNotations.

Local Open Scope R_scope.

(** ** Scalars

    [Float] is the scalar type the class is instantiated with.  Values are
    the IEEE-754 classes: not-a-number, the two infinities, and finite
    numbers.  A finite number carries its exact real value; an operation
    whose exact result leaves the single-precision range [-FLT_MAX, FLT_MAX]
    overflows to the infinity of its sign.

    The model is an idealisation of single precision in three respects.
    Inside the range a result is the exact real, where single precision
    rounds it to the nearest of its numbers.  A result overflows as soon as
    its exact value leaves the range, where single precision rounds a value
    less than half a unit in the last place beyond [FLT_MAX] back to
    [FLT_MAX].  And a small result does not underflow; zero has no sign.
    An order between two results that differ by a rounding error, such as
    the mean of an array against its largest entry, is therefore not a
    property of the code and is not stated here. *)

Inductive Float : Type :=
  | NaN : Float
  | Inf (neg : bool) : Float
  | Fin (x : R) : Float.

(** Largest finite single-precision number, (2^24 - 1) * 2^104. *)
Definition FLT_MAX : R := 340282346638528859811704183484516925440.

Definition Rltb (x y : R) : bool := if Rlt_dec x y then true else false.
Definition Rleb (x y : R) : bool := if Rle_dec x y then true else false.
Definition Reqb (x y : R) : bool := if Req_dec_T x y then true else false.

(** The result of an operation whose exact value is [x]. *)
Definition round (x : R) : Float :=
  if Rltb FLT_MAX x then Inf false
  else if Rltb x (- FLT_MAX) then Inf true
  else Fin x.

Definition fneg (a : Float) : Float :=
  match a with
  | NaN => NaN
  | Inf s => Inf (negb s)
  | Fin x => Fin (- x)
  end.

Definition fabs (a : Float) : Float :=
  match a with
  | NaN => NaN
  | Inf _ => Inf false
  | Fin x => Fin (Rabs x)
  end.

Definition fadd (a b : Float) : Float :=
  match a, b with
  | NaN, _ | _, NaN => NaN
  | Inf s, Inf s' => if Bool.eqb s s' then Inf s else NaN
  | Inf s, Fin _ => Inf s
  | Fin _, Inf s => Inf s
  | Fin x, Fin y => round (x + y)
  end.

Definition fsub (a b : Float) : Float := fadd a (fneg b).

Definition fmul (a b : Float) : Float :=
  match a, b with
  | NaN, _ | _, NaN => NaN
  | Inf s, Inf s' => Inf (xorb s s')
  | Inf s, Fin y => if Reqb y 0 then NaN else Inf (xorb s (Rltb y 0))
  | Fin x, Inf s => if Reqb x 0 then NaN else Inf (xorb (Rltb x 0) s)
  | Fin x, Fin y => round (x * y)
  end.

Definition fdiv (a b : Float) : Float :=
  match a, b with
  | NaN, _ | _, NaN => NaN
  | Inf _, Inf _ => NaN
  | Inf s, Fin y => Inf (xorb s (Rltb y 0))
  | Fin _, Inf _ => Fin 0
  | Fin x, Fin y =>
      if Reqb y 0 then (if Reqb x 0 then NaN else Inf (Rltb x 0))
      else round (x / y)
  end.

(** Comparisons: every comparison with [NaN] is false. *)
Definition fltb (a b : Float) : bool :=
  match a, b with
  | NaN, _ | _, NaN => false
  | Inf s, Inf s' => s && negb s'
  | Inf s, Fin _ => s
  | Fin _, Inf s => negb s
  | Fin x, Fin y => Rltb x y
  end.

Definition fleb (a b : Float) : bool :=
  match a, b with
  | NaN, _ | _, NaN => false
  | Inf s, Inf s' => s || negb s'
  | Inf s, Fin _ => s
  | Fin _, Inf s => negb s
  | Fin x, Fin y => Rleb x y
  end.

(** [dr::maximum] on scalars is [std::max]: [(a < b) ? b : a]. *)
Definition fmaximum (a b : Float) : Float := if fltb a b then b else a.

Definition fexp (a : Float) : Float :=
  match a with
  | NaN => NaN
  | Inf true => Fin 0
  | Inf false => Inf false
  | Fin x => round (exp x)
  end.

Definition flog (a : Float) : Float :=
  match a with
  | NaN => NaN
  | Inf true => NaN
  | Inf false => Inf false
  | Fin x =>
      if Rltb x 0 then NaN
      else if Reqb x 0 then Inf true
      else round (ln x)
  end.

(** Conversion of an array size to [Float]; sizes are far below the range
    of [Float], so the conversion is exact. *)
Definition of_size (n : nat) : Float := Fin (INR n).

Definition is_nan (a : Float) : bool :=
  match a with NaN => true | _ => false end.

Definition is_zero (a : Float) : bool :=
  match a with Fin x => Reqb x 0 | _ => false end.

(** ** Dr.Jit arrays

    [UnpolarizedSpectrum] is a static array of [Float]: one entry per
    spectral channel.  Arithmetic between arrays is entry by entry; a scalar
    operand is applied to every entry; [max], [sum] and [mean] reduce the
    entries of one array to a scalar, from entry 0 upwards. *)

(** [Spectrum] stands for [UnpolarizedSpectrum], the type of every array the
    heuristics take and return. *)
Definition Spectrum : Type := list Float.

Module dr.

Fixpoint zip_with (f : Float -> Float -> Float) (a b : Spectrum) : Spectrum :=
  match a, b with
  | x :: a', y :: b' => f x y :: zip_with f a' b'
  | _, _ => []
  end.

(** Array with [n] entries, all equal to the scalar [x]: the conversion of
    a scalar to an array. *)
Definition full (n : nat) (x : Float) : Spectrum := repeat x n.

Definition abs (a : Spectrum) : Spectrum := map fabs a.
Definition neg (a : Spectrum) : Spectrum := map fneg a.
Definition exp (a : Spectrum) : Spectrum := map fexp a.

Definition add (a b : Spectrum) : Spectrum := zip_with fadd a b.
Definition mul (a b : Spectrum) : Spectrum := zip_with fmul a b.

(** Scalar on the left ([_sv]) or on the right ([_vs]) of an array. *)
Definition add_sv (x : Float) (a : Spectrum) : Spectrum := map (fadd x) a.
Definition mul_sv (x : Float) (a : Spectrum) : Spectrum := map (fmul x) a.
Definition mul_vs (a : Spectrum) (x : Float) : Spectrum :=
  map (fun y => fmul y x) a.
Definition maximum_sv (x : Float) (a : Spectrum) : Spectrum :=
  map (fmaximum x) a.
Definition maximum_vs (a : Spectrum) (x : Float) : Spectrum :=
  map (fun y => fmaximum y x) a.

(** Horizontal reductions.  A static array has at least one entry; on the
    empty list they return the neutral element of the operation. *)
Definition max (a : Spectrum) : Float :=
  match a with
  | [] => Inf true
  | x :: r => fold_left fmaximum r x
  end.

Definition sum (a : Spectrum) : Float :=
  match a with
  | [] => Fin 0
  | x :: r => fold_left fadd r x
  end.

(** The sum of the entries divided by their number. *)
Definition mean (a : Spectrum) : Float :=
  fdiv (sum a) (of_size (length a)).

End dr.

(** ** Rays and interactions *)

Definition Point3f : Type := (Float * Float * Float)%type.
Definition Vector3f : Type := (Float * Float * Float)%type.

Record Ray3f : Type := {
  ray_o : Point3f;
  ray_d : Vector3f;
  ray_mint : Float;
  ray_maxt : Float
}.

(** Position reached after travelling the distance [t] along the ray. *)
Definition ray_at (ray : Ray3f) (t : Float) : Point3f :=
  let '(ox, oy, oz) := ray_o ray in
  let '(dx, dy, dz) := ray_d ray in
  (fadd ox (fmul dx t), fadd oy (fmul dy t), fadd oz (fmul dz t)).

Record MediumInteraction3f : Type := {
  mi_t : Float;
  mi_p : Point3f;
  sigma_s : Spectrum;
  sigma_n : Spectrum;
  sigma_t : Spectrum;
  mi_active : bool
}.

Record SurfaceInteraction3f : Type := {
  si_t : Float
}.

Inductive MediumEventSamplingMode : Type :=
  | Analogue
  | Maximum
  | Mean.

(** ** The medium

    The pure virtual members of [Medium] (medium.h, lines 23-37) are the
    fields of the record, next to the sampling mode fixed at construction
    (line 176). *)

Record Medium : Type := {
  intersect_aabb : Ray3f -> bool * Float * Float;
  get_majorant : MediumInteraction3f -> bool -> Spectrum;
  get_scattering_coefficients :
    MediumInteraction3f -> bool -> Spectrum * Spectrum * Spectrum;
  m_medium_sampling_mode : MediumEventSamplingMode
}.

Section MediumCore.

(** Number of entries of [UnpolarizedSpectrum]. *)
Variable channels : nat.

(** *** Event probabilities (medium.h, lines 47-53, 55-63 and 65-73)

    [prob_s] and [prob_n] of the three heuristics.  Those of Maximum and
    Mean mode are scalars, converted to [UnpolarizedSpectrum] by the return
    type. *)

Definition medium_probabilities_analog
    (radiance : Spectrum) (mi : MediumInteraction3f) : Spectrum * Spectrum :=
  let prob_s := sigma_t mi in
  let prob_n :=
    dr.add (sigma_n mi)
           (dr.maximum_vs radiance (dr.mean (dr.abs radiance))) in
  (prob_s, prob_n).

Definition medium_probabilities_max
    (radiance : Spectrum) (mi : MediumInteraction3f)
    (throughput : Spectrum) : Spectrum * Spectrum :=
  let prob_s := dr.max (dr.abs (dr.mul (sigma_t mi) throughput)) in
  let prob_n :=
    fadd (dr.max (dr.abs (dr.mul (sigma_n mi) throughput)))
         (dr.max (dr.abs (dr.mul radiance
                                 (dr.maximum_sv (Fin 1) throughput)))) in
  (dr.full channels prob_s, dr.full channels prob_n).

Definition medium_probabilities_mean
    (radiance : Spectrum) (mi : MediumInteraction3f)
    (throughput : Spectrum) : Spectrum * Spectrum :=
  let prob_s := dr.mean (dr.abs (dr.mul (sigma_t mi) throughput)) in
  let prob_n :=
    fadd (dr.mean (dr.abs (dr.mul (sigma_n mi) throughput)))
         (dr.mean (dr.abs (dr.mul radiance
                                  (dr.add_sv (Fin (1/2))
                                             (dr.mul_sv (Fin (1/2))
                                                        throughput))))) in
  (dr.full channels prob_s, dr.full channels prob_n).

(** *** Event probabilities: the dispatch *)

(** The weights of the real and the null event returned next to the
    probabilities; nothing below depends on how they are computed. *)
Variable interaction_weights :
  Spectrum -> MediumInteraction3f -> Spectrum ->
  Spectrum * Spectrum -> Spectrum * Spectrum.

(** Modelled from the spec: the body of [get_interaction_probabilities]
    (medium.cpp) is missing.  Section 4.3: the sampling mode of the medium
    selects the heuristic that yields [(prob_s, prob_n)]; the result pairs
    the weights with these probabilities, which the caller normalises. *)
Definition get_interaction_probabilities
    (m : Medium) (radiance : Spectrum) (mi : MediumInteraction3f)
    (throughput : Spectrum)
    : (Spectrum * Spectrum) * (Spectrum * Spectrum) :=
  let probs :=
    match m_medium_sampling_mode m with
    | Analogue => medium_probabilities_analog radiance mi
    | Maximum => medium_probabilities_max radiance mi throughput
    | Mean => medium_probabilities_mean radiance mi throughput
    end in
  (interaction_weights radiance mi throughput probs, probs).

(** *** Free-flight sampling *)

(** Division that faults on a zero divisor. *)
Definition checked_div (a b : Float) : option Float :=
  if is_zero b then None else Some (fdiv a b).

(** The exponential step of section 4.1:
    [t_min - log(1 - sample) / sigma_maj]. *)
Definition free_flight_distance
    (t_min sample sigma_maj : Float) : option Float :=
  match checked_div (flog (fsub (Fin 1) sample)) sigma_maj with
  | None => None
  | Some step => Some (fsub t_min step)
  end.

(** An interaction at distance [t] along [ray] whose coefficients have not
    been evaluated: they are zero. *)
Definition interaction_at
    (ray : Ray3f) (t : Float) (active : bool) : MediumInteraction3f :=
  {| mi_t := t;
     mi_p := ray_at ray t;
     sigma_s := dr.full channels (Fin 0);
     sigma_n := dr.full channels (Fin 0);
     sigma_t := dr.full channels (Fin 0);
     mi_active := active |}.

(** The scalar majorant the free-flight distance is drawn with: the entry
    of the medium's majorant that [channel] selects. *)
Definition sampling_majorant
    (m : Medium) (ray : Ray3f) (channel : nat) : Float :=
  let '(_, t_min, _) := intersect_aabb m ray in
  nth channel (get_majorant m (interaction_at ray t_min true) true) NaN.

(** Modelled from the spec: the body of [sample_interaction] (medium.cpp) is
    missing.  Section 4.1, steps 1 to 5, with the edge case of a majorant
    that is zero or negative (sections 4.1 and 7) tested before the
    exponential step.  The result is [None] when a division faults. *)
Definition sample_interaction
    (m : Medium) (ray : Ray3f) (sample : Float) (channel : nat)
    (active : bool) : option MediumInteraction3f :=
  let '(valid, t_min, t_max) := intersect_aabb m ray in
  if negb (active && valid) then
    Some (interaction_at ray (Inf false) false)
  else
    let sigma_maj := sampling_majorant m ray channel in
    if fleb sigma_maj (Fin 0) then
      Some (interaction_at ray t_max false)
    else
      match free_flight_distance t_min sample sigma_maj with
      | None => None
      | Some t =>
          if fltb t_max t then
            Some (interaction_at ray t_max false)
          else
            let mi := interaction_at ray t true in
            let '(s, n, e) := get_scattering_coefficients m mi true in
            Some {| mi_t := t;
                    mi_p := mi_p mi;
                    sigma_s := s;
                    sigma_n := n;
                    sigma_t := e;
                    mi_active := true |}
      end.

(** *** Transmittance and sampling density *)

(** Modelled from the spec: the body of [transmittance_eval_pdf]
    (medium.cpp) is missing.  Section 4.2: with [sigma_maj] the majorant at
    the interaction, the attenuation is taken up to [mi.t] when the medium
    interaction comes first ([mi.t <= si.t]) and up to [si.t] otherwise; the
    density of a medium interaction carries the factor [sigma_t]. *)
Definition transmittance_eval_pdf
    (m : Medium) (mi : MediumInteraction3f) (si : SurfaceInteraction3f)
    (active : bool) : Spectrum * Spectrum :=
  let sigma_maj := get_majorant m mi active in
  if fleb (mi_t mi) (si_t si) then
    let tr := dr.exp (dr.mul_vs (dr.neg sigma_maj) (mi_t mi)) in
    (tr, dr.mul (sigma_t mi) tr)
  else
    let tr := dr.exp (dr.mul_vs (dr.neg sigma_maj) (si_t si)) in
    (tr, tr).

End MediumCore.

(** ** The consumers of an interaction

    Every member of [Medium] that is given an interaction takes it as
    [const MediumInteraction3f &] (medium.h, lines 29, 36, 44, 49, 57, 67, 77
    and 117).  A call is modelled with the interaction passed through it: it
    returns the spectra the member computes, and the interaction as the call
    leaves it. *)


Section Consumers.

Variable channels : nat.

Variable interaction_weights :
  Spectrum -> MediumInteraction3f -> Spectrum ->
  Spectrum * Spectrum -> Spectrum * Spectrum.

(** [get_radiance] (medium.h, lines 76-78) is only declared: what it
    returns is a parameter. *)
Variable get_radiance : MediumInteraction3f -> bool -> Spectrum.



End Consumers.

(** ** A homogeneous medium

    The medium of the specification's scenarios: constant coefficients
    [sigma_s], [sigma_n] and [sigma_t], and a support that every ray crosses
    between the distances [t_near] and [t_far] (or misses, when [hit] is
    false).  Its majorant is its extinction. *)

Definition homogeneous
    (hit : bool) (t_near t_far : Float) (s n e : Spectrum)
    (mode : MediumEventSamplingMode) : Medium :=
  {| intersect_aabb := fun _ => (hit, t_near, t_far);
     get_majorant := fun _ _ => e;
     get_scattering_coefficients := fun _ _ => (s, n, e);
     m_medium_sampling_mode := mode |}.

(** An interaction at the origin with the given coefficients. *)
Definition interaction_with (s n e : Spectrum) (t : Float) : MediumInteraction3f :=
  {| mi_t := t;
     mi_p := (Fin 0, Fin 0, Fin 0);
     sigma_s := s;
     sigma_n := n;
     sigma_t := e;
     mi_active := true |}.

(** Weights that ignore their arguments. *)
Definition unit_weights
    (_ : Spectrum) (_ : MediumInteraction3f) (_ : Spectrum)
    (probs : Spectrum * Spectrum) : Spectrum * Spectrum :=
  (map (fun _ => Fin 1) (fst probs), map (fun _ => Fin 1) (snd probs)).

(** A ray along the x axis. *)
Definition x_axis_ray : Ray3f :=
  {| ray_o := (Fin 0, Fin 0, Fin 0);
     ray_d := (Fin 1, Fin 0, Fin 0);
     ray_mint := Fin 0;
     ray_maxt := Inf false |}.

(** The medium of the scenarios of section 8: [sigma_t = sigma_s = 1],
    [sigma_n = 0], support [[0, 10]]. *)
Definition scenario_medium (mode : MediumEventSamplingMode) : Medium :=
  homogeneous true (Fin 0) (Fin 10) [Fin 1] [Fin 0] [Fin 1] mode.

(** A medium without extinction. *)
Definition clear_medium : Medium :=
  homogeneous true (Fin 0) (Fin 10) [Fin 0] [Fin 0] [Fin 0] Analogue.

(** A medium whose support the ray misses. *)
Definition missed_medium : Medium :=
  homogeneous false (Fin 0) (Fin 0) [Fin 1] [Fin 0] [Fin 1] Analogue.

(** A medium with as many real as null collisions:
    [sigma_s = sigma_n = 1/2], [sigma_t = 1]. *)
Definition mixed_medium : Medium :=
  homogeneous true (Fin 0) (Fin 10) [Fin (1/2)] [Fin (1/2)] [Fin 1] Analogue.

(** An interaction with one channel: [sigma_s = sigma_t = 1],
    [sigma_n = 0]. *)
Definition mono_interaction : MediumInteraction3f :=
  interaction_with [Fin 1] [Fin 0] [Fin 1] (Fin 0).

(** An interaction with three channels whose extinction varies. *)
Definition rgb_interaction : MediumInteraction3f :=
  interaction_with [Fin 1; Fin 2; Fin 3] [Fin 0; Fin 0; Fin 0]
                   [Fin 1; Fin 2; Fin 3] (Fin 0).

(** ** Value classes *)

(** A finite number inside the representable range. *)
Definition finite (v : Float) : Prop :=
  exists x, v = Fin x /\ - FLT_MAX <= x <= FLT_MAX.

(** A finite, non-negative number. *)
Definition finite_nonneg (v : Float) : Prop :=
  exists x, v = Fin x /\ 0 <= x <= FLT_MAX.

(** A non-negative number that may have overflowed. *)
Definition nonneg_num (v : Float) : Prop :=
  v = Inf false \/ finite_nonneg v.



(** What section 8 of the specification asks of a probability: it compares
    as at least zero, and it is a number. *)
Definition probability_ok (v : Float) : Prop :=
  fleb (Fin 0) v = true /\ is_nan v = false.

(** Both probabilities have one value per channel, each of them fine. *)
Definition probabilities_ok (channels : nat) (probs : Spectrum * Spectrum) : Prop :=
  (length (fst probs) = channels /\ Forall probability_ok (fst probs)) /\
  (length (snd probs) = channels /\ Forall probability_ok (snd probs)).

(** ** The formulas of section 4.3 over the reals

    What the specification says the three heuristics compute, written with
    the operations of the reals: the largest entry, the arithmetic mean and
    the absolute value of a product, channel by channel. *)

(** The values of an array of finite numbers, one per channel. *)
Definition reals_of (channels : nat) (a : Spectrum) (xs : list R) : Prop :=
  a = map Fin xs /\ length xs = channels.

Definition in_range (x : R) : Prop := - FLT_MAX <= x <= FLT_MAX.

Fixpoint abs_products (a b : list R) : list R :=
  match a, b with
  | x :: a', y :: b' => Rabs (x * y) :: abs_products a' b'
  | _, _ => []
  end.

(** Largest entry of a list of non-negative reals. *)
Definition largest (xs : list R) : R := fold_right Rmax 0 xs.

Definition total (xs : list R) : R := fold_right Rplus 0 xs.

Definition average (xs : list R) : R := total xs / INR (length xs).

(** Analog: [prob_n = sigma_n + max(radiance, mean(|radiance|))]. *)
Fixpoint ideal_analog_n (avg : R) (sigma_n radiance : list R) : list R :=
  match sigma_n, radiance with
  | n :: sigma_n', r :: radiance' =>
      (n + Rmax r avg) :: ideal_analog_n avg sigma_n' radiance'
  | _, _ => []
  end.

(** Maximum: [prob_s = max |sigma_t * throughput|] and
    [prob_n = max |sigma_n * throughput|
              + max |radiance * max(1, throughput)|]. *)
Definition ideal_max_s (sigma_t throughput : list R) : R :=
  largest (abs_products sigma_t throughput).

Definition ideal_max_n (radiance sigma_n throughput : list R) : R :=
  largest (abs_products sigma_n throughput)
  + largest (abs_products radiance (map (Rmax 1) throughput)).

(** Mean: the same with the mean, and the radiance weighted by
    [0.5 + 0.5 * throughput]. *)
Definition ideal_mean_s (sigma_t throughput : list R) : R :=
  average (abs_products sigma_t throughput).

Definition ideal_mean_n (radiance sigma_n throughput : list R) : R :=
  average (abs_products sigma_n throughput)
  + average (abs_products radiance
               (map (fun t => 1/2 + 1/2 * t) throughput)).

(** No intermediate value of the heuristic leaves the range of [Float]. *)
Definition analog_in_range (radiance sigma_n : list R) : Prop :=
  in_range (total (map Rabs radiance)) /\
  Forall in_range
    (ideal_analog_n (average (map Rabs radiance)) sigma_n radiance).

Definition max_in_range (radiance sigma_t sigma_n throughput : list R) : Prop :=
  Forall in_range (abs_products sigma_t throughput) /\
  Forall in_range (abs_products sigma_n throughput) /\
  Forall in_range (abs_products radiance (map (Rmax 1) throughput)) /\
  in_range (ideal_max_n radiance sigma_n throughput).

Definition mean_in_range (radiance sigma_t sigma_n throughput : list R) : Prop :=
  Forall in_range throughput /\
  in_range (total (abs_products sigma_t throughput)) /\
  in_range (total (abs_products sigma_n throughput)) /\
  in_range (total (abs_products radiance
                     (map (fun t => 1/2 + 1/2 * t) throughput))) /\
  in_range (ideal_mean_n radiance sigma_n throughput).

(** ** Values a [Float] holds

    Not-a-number, an infinity, or a finite number inside the range: what an
    operation of the model returns, and what an argument of the heuristics
    can be. *)
Definition representable (v : Float) : Prop :=
  match v with
  | Fin x => in_range x
  | _ => True
  end.

(** * Properties *)

(** ** Comparisons and rounding *)

Lemma Rltb_true (x y : R) : Rltb x y = true <-> x < y.
Proof. unfold Rltb; destruct (Rlt_dec x y); split; intros; auto; discriminate. Qed.

Lemma Rltb_false (x y : R) : Rltb x y = false <-> y <= x.
Proof.
  unfold Rltb; destruct (Rlt_dec x y); split; intros; auto; try discriminate; lra.
Qed.

Lemma Rleb_true (x y : R) : Rleb x y = true <-> x <= y.
Proof. unfold Rleb; destruct (Rle_dec x y); split; intros; auto; discriminate. Qed.

Lemma Rleb_false (x y : R) : Rleb x y = false <-> y < x.
Proof.
  unfold Rleb; destruct (Rle_dec x y); split; intros; auto; try discriminate; lra.
Qed.

Lemma Reqb_true (x y : R) : Reqb x y = true <-> x = y.
Proof. unfold Reqb; destruct (Req_dec_T x y); split; intros; auto; discriminate. Qed.

Lemma Reqb_false (x y : R) : Reqb x y = false <-> x <> y.
Proof.
  unfold Reqb; destruct (Req_dec_T x y); split; intros; auto; try discriminate.
  contradiction.
Qed.

(** Decide every comparison of reals in the goal, keeping the fact. *)
Ltac real_cases :=
  repeat match goal with
    | |- context [Rltb ?x ?y] =>
        let E := fresh "E" in
        destruct (Rltb x y) eqn:E;
        [apply Rltb_true in E | apply Rltb_false in E]
    | |- context [Rleb ?x ?y] =>
        let E := fresh "E" in
        destruct (Rleb x y) eqn:E;
        [apply Rleb_true in E | apply Rleb_false in E]
    | |- context [Reqb ?x ?y] =>
        let E := fresh "E" in
        destruct (Reqb x y) eqn:E;
        [apply Reqb_true in E | apply Reqb_false in E]
    end.

Lemma FLT_MAX_ge_1 : 1 <= FLT_MAX.
Proof. unfold FLT_MAX; lra. Qed.

Lemma round_in_range (x : R) :
  - FLT_MAX <= x <= FLT_MAX -> round x = Fin x.
Proof. intros [Hl Hu]; unfold round; real_cases; try lra; reflexivity. Qed.

Lemma exp_nonpos_le_1 (x : R) : x <= 0 -> 0 < exp x <= 1.
Proof.
  intros Hx. split; [apply exp_pos|].
  destruct Hx as [Hx| ->]; [|rewrite exp_0; lra].
  left. rewrite <- exp_0. apply exp_increasing; exact Hx.
Qed.

(** Strict comparison excludes the converse weak one, also with [NaN]. *)
Lemma fltb_not_fleb (a b : Float) : fltb a b = true -> fleb b a = false.
Proof.
  destruct a as [|s|x], b as [|s'|y]; simpl; try discriminate; auto.
  - destruct s, s'; simpl; auto; discriminate.
  - intros ->; reflexivity.
  - intros H; apply negb_true_iff in H; subst; reflexivity.
  - intros H; apply Rltb_true in H; apply Rleb_false; exact H.
Qed.

(** ** Arrays *)

Lemma zip_with_length (f : Float -> Float -> Float) (a b : Spectrum) :
  length (dr.zip_with f a b) = Nat.min (length a) (length b).
Proof.
  revert b; induction a as [|x a IH]; intros [|y b]; simpl; auto.
Qed.

Lemma zip_with_nth (f : Float -> Float -> Float) (a b : Spectrum) (i : nat) (d : Float) :
  (i < length a)%nat -> (i < length b)%nat ->
  nth i (dr.zip_with f a b) d = f (nth i a d) (nth i b d).
Proof.
  revert b i; induction a as [|x a IH]; intros [|y b] [|i]; simpl; intros Ha Hb;
    try lia; auto.
  apply IH; lia.
Qed.

Lemma map_nth_in (f : Float -> Float) (a : Spectrum) (i : nat) (d : Float) :
  (i < length a)%nat -> nth i (map f a) d = f (nth i a d).
Proof.
  revert i; induction a as [|x a IH]; intros [|i]; simpl; intros H; try lia; auto.
  apply IH; lia.
Qed.

Lemma zip_with_Forall (A B C : Float -> Prop) (f : Float -> Float -> Float) :
  (forall x y, A x -> B y -> C (f x y)) ->
  forall a b, Forall A a -> Forall B b -> Forall C (dr.zip_with f a b).
Proof.
  intros Hf a; induction a as [|x a IH]; intros [|y b] Ha Hb; simpl; auto.
  inversion Ha; inversion Hb; subst; constructor; auto.
Qed.

Lemma map_Forall (A B : Float -> Prop) (f : Float -> Float) :
  (forall x, A x -> B (f x)) -> forall a, Forall A a -> Forall B (map f a).
Proof.
  intros Hf a Ha; induction Ha; simpl; constructor; auto.
Qed.

Lemma full_Forall (A : Float -> Prop) (n : nat) (x : Float) :
  A x -> Forall A (dr.full n x).
Proof. intros H; induction n; simpl; constructor; auto. Qed.

Lemma full_length (n : nat) (x : Float) : length (dr.full n x) = n.
Proof. apply repeat_length. Qed.

(** ** Non-negative values are closed under the operations used *)

Lemma round_nonneg (x : R) : 0 <= x -> nonneg_num (round x).
Proof.
  intros Hx; unfold round, nonneg_num, finite_nonneg.
  pose proof FLT_MAX_ge_1.
  real_cases; try lra; [left; reflexivity | right; exists x; split; [reflexivity | lra]].
Qed.

Lemma finite_nonneg_num (v : Float) : finite_nonneg v -> nonneg_num v.
Proof. intros H; right; exact H. Qed.

Lemma fadd_nonneg (a b : Float) :
  nonneg_num a -> nonneg_num b -> nonneg_num (fadd a b).
Proof.
  intros [->|[x [-> Hx]]] [->|[y [-> Hy]]]; simpl;
    try (left; reflexivity).
  apply round_nonneg; lra.
Qed.

Lemma fmul_finite_nonneg (a b : Float) :
  finite_nonneg a -> finite_nonneg b -> nonneg_num (fmul a b).
Proof.
  intros [x [-> Hx]] [y [-> Hy]]; simpl.
  apply round_nonneg. apply Rmult_le_pos; lra.
Qed.

Lemma fabs_nonneg (a : Float) : nonneg_num a -> nonneg_num (fabs a).
Proof.
  intros [->|[x [-> Hx]]]; simpl; [left; reflexivity|].
  right; exists (Rabs x); split; [reflexivity|].
  rewrite Rabs_right by lra. exact Hx.
Qed.

Lemma fmaximum_nonneg (a b : Float) :
  nonneg_num a -> nonneg_num b -> nonneg_num (fmaximum a b).
Proof. intros Ha Hb; unfold fmaximum; destruct (fltb a b); assumption. Qed.

Lemma fmaximum_finite_nonneg (a b : Float) :
  finite_nonneg a -> finite_nonneg b -> finite_nonneg (fmaximum a b).
Proof. intros Ha Hb; unfold fmaximum; destruct (fltb a b); assumption. Qed.

Lemma fdiv_size_nonneg (a : Float) (n : nat) :
  (0 < n)%nat -> nonneg_num a -> nonneg_num (fdiv a (of_size n)).
Proof.
  intros Hn Ha.
  assert (Hpos : 0 < INR n) by (apply lt_0_INR; exact Hn).
  destruct Ha as [->|[x [-> Hx]]]; unfold of_size; simpl.
  - left. real_cases; [lra | reflexivity].
  - destruct (Reqb (INR n) 0) eqn:E; [apply Reqb_true in E; lra|].
    apply round_nonneg.
    apply Rmult_le_pos; [lra|]. left; apply Rinv_0_lt_compat; exact Hpos.
Qed.

(** The radiance weight of Mean mode stays finite: half the throughput
    plus one half cannot leave the range. *)
Lemma mean_weight_finite (v : Float) :
  finite_nonneg v -> finite_nonneg (fadd (Fin (1/2)) (fmul (Fin (1/2)) v)).
Proof.
  intros [x [-> Hx]]; simpl. pose proof FLT_MAX_ge_1 as H1.
  rewrite (round_in_range (1/2 * x)) by lra; simpl.
  rewrite round_in_range by lra.
  exists (1/2 + 1/2 * x); split; [reflexivity | lra].
Qed.

(** The radiance weight of Maximum mode stays finite. *)
Lemma max_weight_finite (v : Float) :
  finite_nonneg v -> finite_nonneg (fmaximum (Fin 1) v).
Proof.
  intros Hv; apply fmaximum_finite_nonneg; [|exact Hv].
  exists 1; split; [reflexivity|]. pose proof FLT_MAX_ge_1; lra.
Qed.

Lemma fold_left_closed (A : Float -> Prop) (f : Float -> Float -> Float) :
  (forall x y, A x -> A y -> A (f x y)) ->
  forall l x, A x -> Forall A l -> A (fold_left f l x).
Proof.
  intros Hf l; induction l as [|y l IH]; intros x Hx Hl; simpl; [exact Hx|].
  inversion Hl; subst. apply IH; auto.
Qed.

Lemma sum_nonneg (a : Spectrum) : Forall nonneg_num a -> nonneg_num (dr.sum a).
Proof.
  intros Ha; destruct a as [|x a]; simpl.
  - right; exists 0; split; [reflexivity|]. pose proof FLT_MAX_ge_1; lra.
  - inversion Ha; subst. apply fold_left_closed; auto using fadd_nonneg.
Qed.

Lemma max_nonneg (a : Spectrum) :
  a <> [] -> Forall nonneg_num a -> nonneg_num (dr.max a).
Proof.
  intros Hne Ha; destruct a as [|x a]; [contradiction|]; simpl.
  inversion Ha; subst. apply fold_left_closed; auto using fmaximum_nonneg.
Qed.

Lemma mean_nonneg (a : Spectrum) :
  a <> [] -> Forall nonneg_num a -> nonneg_num (dr.mean a).
Proof.
  intros Hne Ha; unfold dr.mean. apply fdiv_size_nonneg.
  - destruct a; [contradiction | simpl; lia].
  - apply sum_nonneg; exact Ha.
Qed.

(** A non-negative value compares as such, and is a number. *)
Lemma nonneg_num_sound (v : Float) :
  nonneg_num v -> fleb (Fin 0) v = true /\ is_nan v = false.
Proof.
  intros [->|[x [-> Hx]]]; simpl; split; try reflexivity.
  apply Rleb_true; lra.
Qed.

(** ** What the reductions compute *)

Lemma fleb_refl (a : Float) : is_nan a = false -> fleb a a = true.
Proof.
  destruct a as [|[]|x]; simpl; intros H; try discriminate; try reflexivity.
  apply Rleb_true; lra.
Qed.

Lemma fleb_trans (a b c : Float) :
  fleb a b = true -> fleb b c = true -> fleb a c = true.
Proof.
  destruct a as [|[]|x], b as [|[]|y], c as [|[]|z]; simpl;
    try discriminate; try reflexivity.
  intros H1 H2. apply Rleb_true in H1, H2. apply Rleb_true. lra.
Qed.

(** Two numbers are ordered one way or the other. *)
Lemma fltb_or_fleb (a b : Float) :
  is_nan a = false -> is_nan b = false ->
  fltb a b = false -> fleb b a = true.
Proof.
  destruct a as [|[]|x], b as [|[]|y]; simpl;
    try discriminate; try reflexivity; intros _ _.
  intros H. apply Rltb_false in H. apply Rleb_true. exact H.
Qed.

Lemma fltb_fleb (a b : Float) : fltb a b = true -> fleb a b = true.
Proof.
  destruct a as [|[]|x], b as [|[]|y]; simpl;
    try discriminate; try reflexivity.
  intros H. apply Rltb_true in H. apply Rleb_true. lra.
Qed.

Lemma fmaximum_bounds (a b : Float) :
  is_nan a = false -> is_nan b = false ->
  is_nan (fmaximum a b) = false /\
  fleb a (fmaximum a b) = true /\ fleb b (fmaximum a b) = true.
Proof.
  intros Ha Hb. unfold fmaximum. destruct (fltb a b) eqn:E.
  - auto using fltb_fleb, fleb_refl.
  - auto using fltb_or_fleb, fleb_refl.
Qed.

Lemma fmaximum_choice (a b : Float) : fmaximum a b = a \/ fmaximum a b = b.
Proof. unfold fmaximum. destruct (fltb a b); auto. Qed.

Lemma fold_maximum_bounds (l : Spectrum) (acc : Float) :
  is_nan acc = false -> Forall (fun v => is_nan v = false) l ->
  is_nan (fold_left fmaximum l acc) = false /\
  fleb acc (fold_left fmaximum l acc) = true /\
  forall x, In x l -> fleb x (fold_left fmaximum l acc) = true.
Proof.
  revert acc; induction l as [|y l IH]; intros acc Hacc Hl; simpl.
  - repeat split; [exact Hacc | apply fleb_refl; exact Hacc | contradiction].
  - inversion Hl as [|? ? Hy Hl']; subst.
    destruct (fmaximum_bounds acc y Hacc Hy) as (Hm & Ha & Hb).
    destruct (IH (fmaximum acc y) Hm Hl') as (Hn & Hle & Hall).
    repeat split; [exact Hn | eapply fleb_trans; eassumption |].
    intros x [<-|Hx]; [eapply fleb_trans; eassumption | apply Hall, Hx].
Qed.

Lemma fold_maximum_choice (l : Spectrum) (acc : Float) :
  fold_left fmaximum l acc = acc \/ In (fold_left fmaximum l acc) l.
Proof.
  revert acc; induction l as [|y l IH]; intros acc; simpl; [auto|].
  destruct (IH (fmaximum acc y)) as [E|Hin]; [|auto].
  rewrite E. destruct (fmaximum_choice acc y) as [->| ->]; auto.
Qed.

(** [dr.max] of an array of numbers is one of its entries, and no entry
    exceeds it. *)
Lemma max_is_largest (a : Spectrum) :
  a <> [] -> Forall (fun v => is_nan v = false) a ->
  In (dr.max a) a /\ forall x, In x a -> fleb x (dr.max a) = true.
Proof.
  intros Hne Ha. destruct a as [|x0 a]; [contradiction|].
  inversion Ha as [|? ? H0 Ha']; subst. unfold dr.max.
  destruct (fold_maximum_bounds a x0 H0 Ha') as (_ & Hle & Hall).
  split.
  - destruct (fold_maximum_choice a x0) as [->|Hin]; [left | right]; auto.
  - intros x [<-|Hx]; auto.
Qed.

(** Sum of reals, in the order of the reduction. *)
Lemma fold_add_finite (xs : list R) (acc : R) :
  0 <= acc -> Forall (fun x => 0 <= x) xs ->
  fold_left Rplus xs acc <= FLT_MAX ->
  fold_left fadd (map Fin xs) (Fin acc) = Fin (fold_left Rplus xs acc).
Proof.
  revert acc; induction xs as [|x xs IH]; intros acc Hacc Hxs Hsum; simpl;
    [reflexivity|].
  inversion Hxs as [|? ? Hx Hxs']; subst. simpl in Hsum.
  assert (Hmono : forall l b, Forall (fun x => 0 <= x) l -> b <= fold_left Rplus l b).
  { induction l as [|z l IHl]; intros b Hl; simpl; [lra|].
    inversion Hl; subst. eapply Rle_trans; [|apply IHl; assumption]. lra. }
  pose proof (Hmono xs (acc + x) Hxs') as Hle.
  rewrite round_in_range by lra.
  apply IH; [lra | exact Hxs' | exact Hsum].
Qed.

(** [dr.mean] of non-negative reals whose sum stays in range is their
    arithmetic mean. *)
Lemma mean_is_arithmetic_mean (x : R) (xs : list R) :
  Forall (fun x => 0 <= x) (x :: xs) ->
  fold_left Rplus xs x <= FLT_MAX ->
  dr.mean (map Fin (x :: xs))
  = Fin (fold_left Rplus xs x / INR (length (x :: xs))).
Proof.
  intros Hxs Hsum. inversion Hxs as [|? ? Hx Hxs']; subst.
  unfold dr.mean, dr.sum, of_size. cbn [map].
  rewrite fold_add_finite by assumption.
  cbn [length]. rewrite length_map.
  assert (Hn : 1 <= INR (S (length xs))).
  { replace 1 with (INR 1) by reflexivity. apply le_INR. lia. }
  assert (Hs : 0 <= fold_left Rplus xs x).
  { clear Hsum Hxs Hn. revert x Hx. induction xs as [|z zs IHz]; intros x Hx; simpl;
      [exact Hx|].
    inversion Hxs' as [|? ? Hz Hzs]; subst. apply IHz; [exact Hzs | lra]. }
  cbn [fdiv].
  destruct (Reqb (INR (S (length xs))) 0) eqn:E;
    [apply Reqb_true in E; lra|].
  apply round_in_range.
  assert (Hinv : 0 < / INR (S (length xs)) <= 1).
  { split; [apply Rinv_0_lt_compat; lra|].
    rewrite <- Rinv_1. apply Rinv_le_contravar; lra. }
  pose proof FLT_MAX_ge_1. unfold Rdiv.
  split.
  - apply Rle_trans with 0; [lra|]. apply Rmult_le_pos; lra.
  - apply Rle_trans with (fold_left Rplus xs x * 1); [|lra].
    apply Rmult_le_compat_l; lra.
Qed.

(** ** The code against the formulas over the reals *)

Lemma abs_products_nonneg (a b : list R) :
  Forall (fun x => 0 <= x) (abs_products a b).
Proof.
  revert b; induction a as [|x a IH]; intros [|y b]; simpl; constructor;
    [apply Rabs_pos | apply IH].
Qed.

Lemma abs_products_length (a b : list R) :
  length (abs_products a b) = Nat.min (length a) (length b).
Proof.
  revert b; induction a as [|x a IH]; intros [|y b]; simpl; auto.
Qed.

Lemma abs_products_nonempty (n : nat) (a b : list R) :
  length a = n -> length b = n -> (0 < n)%nat -> abs_products a b <> [].
Proof.
  intros La Lb Hn E. pose proof (abs_products_length a b) as L.
  rewrite E, La, Lb, Nat.min_id in L. simpl in L. lia.
Qed.

Lemma Rabs_bound (x b : R) : Rabs x <= b -> - b <= x <= b.
Proof.
  intros H. pose proof (Rle_abs x). pose proof (Rle_abs (- x)) as Hn.
  rewrite Rabs_Ropp in Hn. lra.
Qed.

(** In range, the absolute values of the products are exact. *)
Lemma abs_mul_reals (a b : list R) :
  Forall in_range (abs_products a b) ->
  dr.abs (dr.mul (map Fin a) (map Fin b)) = map Fin (abs_products a b).
Proof.
  unfold dr.abs, dr.mul.
  revert b; induction a as [|x a IH]; intros [|y b] H; simpl; try reflexivity.
  inversion H as [|? ? [_ Hxy] H']; subst.
  rewrite round_in_range by (apply Rabs_bound; exact Hxy).
  simpl. f_equal. apply IH; exact H'.
Qed.

Lemma fmaximum_Rmax (x y : R) : fmaximum (Fin x) (Fin y) = Fin (Rmax x y).
Proof.
  unfold fmaximum, Rmax; simpl.
  destruct (Rltb x y) eqn:E; [apply Rltb_true in E | apply Rltb_false in E];
    destruct (Rle_dec x y); try reflexivity; f_equal; lra.
Qed.

Lemma fold_maximum_reals (xs : list R) (acc : R) :
  fold_left fmaximum (map Fin xs) (Fin acc) = Fin (fold_left Rmax xs acc).
Proof.
  revert acc; induction xs as [|x xs IH]; intros acc; simpl; [reflexivity|].
  rewrite fmaximum_Rmax. apply IH.
Qed.

Lemma fold_Rmax_largest (xs : list R) (acc : R) :
  0 <= acc -> fold_left Rmax xs acc = Rmax acc (largest xs).
Proof.
  unfold largest.
  revert acc; induction xs as [|x xs IH]; intros acc Hacc; simpl.
  - rewrite Rmax_left by exact Hacc. reflexivity.
  - rewrite IH by (eapply Rle_trans; [exact Hacc | apply Rmax_l]).
    symmetry. apply Rmax_assoc.
Qed.

(** [dr.max] of non-negative reals is their largest. *)
Lemma max_reals (xs : list R) :
  xs <> [] -> Forall (fun x => 0 <= x) xs ->
  dr.max (map Fin xs) = Fin (largest xs).
Proof.
  intros Hne Hxs. destruct xs as [|x xs]; [contradiction|].
  inversion Hxs; subst. unfold dr.max; cbn [map].
  rewrite fold_maximum_reals, fold_Rmax_largest by assumption. reflexivity.
Qed.

Lemma fold_Rplus_total (xs : list R) (acc : R) :
  fold_left Rplus xs acc = acc + total xs.
Proof.
  unfold total.
  revert acc; induction xs as [|x xs IH]; intros acc; simpl; [lra|].
  rewrite IH. lra.
Qed.

(** [dr.mean] of non-negative reals whose sum is in range is their
    average. *)
Lemma mean_reals (xs : list R) :
  xs <> [] -> Forall (fun x => 0 <= x) xs -> in_range (total xs) ->
  dr.mean (map Fin xs) = Fin (average xs).
Proof.
  intros Hne Hxs [_ Hsum]. destruct xs as [|x xs]; [contradiction|].
  rewrite mean_is_arithmetic_mean;
    [|exact Hxs | rewrite fold_Rplus_total; exact Hsum].
  unfold average. rewrite fold_Rplus_total. reflexivity.
Qed.

Lemma total_nonneg (xs : list R) :
  Forall (fun x => 0 <= x) xs -> 0 <= total xs.
Proof.
  unfold total. intros H; induction H; simpl; lra.
Qed.

(** The radiance weights of the two reducing modes. *)
Lemma max_weights_reals (T : list R) :
  dr.maximum_sv (Fin 1) (map Fin T) = map Fin (map (Rmax 1) T).
Proof.
  unfold dr.maximum_sv. rewrite !map_map.
  apply map_ext. intros t. apply fmaximum_Rmax.
Qed.

Lemma mean_weights_reals (T : list R) :
  Forall in_range T ->
  dr.add_sv (Fin (1/2)) (dr.mul_sv (Fin (1/2)) (map Fin T))
  = map Fin (map (fun t => 1/2 + 1/2 * t) T).
Proof.
  intros HT. unfold dr.add_sv, dr.mul_sv. rewrite !map_map.
  induction HT as [|t T [Hl Hu] _ IH]; simpl; [reflexivity|].
  pose proof FLT_MAX_ge_1 as H1.
  rewrite (round_in_range (1/2 * t)) by lra. simpl.
  rewrite round_in_range by lra. f_equal. exact IH.
Qed.

Lemma analog_n_reals (avg : R) (sn r : list R) :
  Forall in_range (ideal_analog_n avg sn r) ->
  dr.add (map Fin sn) (dr.maximum_vs (map Fin r) (Fin avg))
  = map Fin (ideal_analog_n avg sn r).
Proof.
  unfold dr.add, dr.maximum_vs.
  revert r; induction sn as [|n sn IH]; intros [|x r] H; simpl; try reflexivity.
  inversion H as [|? ? Hx H']; subst.
  rewrite fmaximum_Rmax. simpl. rewrite round_in_range by exact Hx.
  f_equal. apply IH; exact H'.
Qed.

(** Non-negative reals whose sum is in range are in range. *)
Lemma in_range_of_total (xs : list R) :
  Forall (fun x => 0 <= x) xs -> in_range (total xs) -> Forall in_range xs.
Proof.
  unfold in_range, total. intros H; induction H as [|x xs Hx Hxs IH]; simpl;
    intros Hsum; constructor.
  - pose proof (total_nonneg xs Hxs) as Ht. unfold total in Ht.
    pose proof FLT_MAX_ge_1. lra.
  - apply IH. pose proof (total_nonneg xs Hxs) as Ht. unfold total in Ht.
    pose proof FLT_MAX_ge_1. lra.
Qed.

(** ** Evaluation at concrete inputs *)

(** Evaluate operations on finite literals that stay in range. *)
Ltac float_step :=
  cbn [fadd fmul fdiv fabs fneg fleb fltb is_zero is_nan
       map length fold_left repeat nth fst snd INR dr.zip_with].

Ltac float_eval :=
  unfold dr.mean, dr.max, dr.sum, dr.abs, dr.mul, dr.add, dr.full,
    dr.maximum_sv, dr.maximum_vs, dr.add_sv, dr.mul_sv, of_size,
    fmaximum, fsub;
  float_step;
  repeat first
    [ rewrite round_in_range by (unfold FLT_MAX; lra)
    | match goal with
      | |- context [Rabs ?x] =>
          first [ rewrite (Rabs_right x) by lra
                | rewrite (Rabs_left x) by lra ]
      end
    | progress float_step
    | progress real_cases; try lra ].

(** Equality of results whose finite entries are equal as reals. *)
Ltac same_values :=
  repeat match goal with
    | |- (_, _) = (_, _) => apply f_equal2
    | |- _ :: _ = _ :: _ => apply f_equal2
    | |- @nil _ = @nil _ => reflexivity
    | |- Some _ = Some _ => apply f_equal
    | |- Fin _ = Fin _ => apply f_equal; lra
    end.

(** Finite literals are finite. *)
Ltac finite_literals :=
  repeat constructor;
  eexists; (split; [reflexivity | unfold FLT_MAX; lra]).

(** Evaluate the formulas over the reals at literals. *)
Ltac real_eval :=
  unfold in_range, ideal_max_s, ideal_max_n, ideal_mean_s, ideal_mean_n,
    average, total, largest;
  cbn [abs_products ideal_analog_n map fold_right length INR];
  repeat match goal with
    | |- context [Rabs ?x] =>
        first [ rewrite (Rabs_right x) by lra
              | rewrite (Rabs_left x) by lra ]
    | |- context [Rmax ?x ?y] =>
        first [ rewrite (Rmax_left x y) by lra
              | rewrite (Rmax_right x y) by lra ]
    end.

(** Unfold the heuristics at a concrete interaction. *)
Ltac unfold_probabilities :=
  unfold get_interaction_probabilities, medium_probabilities_analog,
    medium_probabilities_max, medium_probabilities_mean,
    scenario_medium, homogeneous, mono_interaction, rgb_interaction,
    interaction_with;
  cbn [m_medium_sampling_mode sigma_s sigma_n sigma_t fst snd].

(** Unfold the members of a concrete medium. *)
Ltac unfold_medium :=
  unfold sampling_majorant, scenario_medium, clear_medium, missed_medium,
    mixed_medium, homogeneous, mono_interaction, interaction_with;
  cbn [intersect_aabb get_majorant get_scattering_coefficients
       sigma_s sigma_n sigma_t mi_t si_t].

Example max_of_three :
  dr.max [Fin 1; Fin 2; Fin 3] = Fin 3.
Proof. float_eval. reflexivity. Qed.

Example mean_of_three :
  dr.mean [Fin 1; Fin 2; Fin 3] = Fin 2.
Proof. float_eval. same_values. Qed.

(** ** The three heuristics, mode by mode *)

Section Heuristics.

Variable channels : nat.
Variable weights :
  Spectrum -> MediumInteraction3f -> Spectrum ->
  Spectrum * Spectrum -> Spectrum * Spectrum.

(** The probabilities [get_interaction_probabilities] returns are those of
    the heuristic its mode names. *)
Lemma get_interaction_probabilities_by_mode
    (m : Medium) (radiance : Spectrum) (mi : MediumInteraction3f)
    (throughput : Spectrum) :
  snd (get_interaction_probabilities channels weights m radiance mi throughput)
  = match m_medium_sampling_mode m with
    | Analogue => medium_probabilities_analog radiance mi
    | Maximum => medium_probabilities_max channels radiance mi throughput
    | Mean => medium_probabilities_mean channels radiance mi throughput
    end.
Proof. reflexivity. Qed.

(** C3. In Analog mode [get_interaction_probabilities] returns the pair of
    [medium_probabilities_analog], which keeps one value per channel:
    [prob_s] is [sigma_t], and channel [i] of [prob_n] is channel [i] of
    [sigma_n] plus the larger of channel [i] of the radiance and the mean,
    over the channels, of the absolute radiance.  On finite numbers, as long
    as no value leaves the range of [Float], this is the formula
    [sigma_n + max(radiance, mean(|radiance|))] over the reals. *)
Theorem analog_probabilities_per_channel
    (m : Medium) (radiance : Spectrum) (mi : MediumInteraction3f)
    (throughput : Spectrum) :
  m_medium_sampling_mode m = Analogue ->
  length radiance = channels ->
  length (sigma_n mi) = channels ->
  snd (get_interaction_probabilities channels weights m radiance mi throughput)
  = medium_probabilities_analog radiance mi /\
  let '(prob_s, prob_n) := medium_probabilities_analog radiance mi in
  prob_s = sigma_t mi /\
  length prob_n = channels /\
  (forall i, (i < channels)%nat ->
     nth i prob_n NaN =
       fadd (nth i (sigma_n mi) NaN)
            (fmaximum (nth i radiance NaN) (dr.mean (dr.abs radiance)))) /\
  (forall r sn : list R,
     reals_of channels radiance r ->
     reals_of channels (sigma_n mi) sn ->
     (0 < channels)%nat ->
     analog_in_range r sn ->
     prob_n = map Fin (ideal_analog_n (average (map Rabs r)) sn r)).
Proof.
  intros Hmode Hr Hn.
  rewrite get_interaction_probabilities_by_mode, Hmode.
  split; [reflexivity|].
  unfold medium_probabilities_analog.
  split; [reflexivity|]. split; [|split].
  - unfold dr.add, dr.maximum_vs.
    rewrite zip_with_length, length_map, Hr, Hn. apply Nat.min_id.
  - intros i Hi. unfold dr.add, dr.maximum_vs.
    rewrite zip_with_nth by (rewrite ?length_map; lia).
    rewrite map_nth_in by lia. reflexivity.
  - intros r sn [-> Lr] [-> Ln] Hc [Hsum Hall].
    assert (Habs : dr.abs (map Fin r) = map Fin (map Rabs r))
      by (unfold dr.abs; rewrite !map_map; reflexivity).
    rewrite Habs, mean_reals; [apply analog_n_reals; exact Hall | | | exact Hsum].
    + destruct r; [simpl in Lr; lia | discriminate].
    + rewrite Forall_map. apply Forall_forall. intros x _. apply Rabs_pos.
Qed.

(** C4. In Maximum mode [get_interaction_probabilities] returns the pair of
    [medium_probabilities_max], two scalars, each the same on every channel:
    [prob_s] is the largest entry of [|sigma_t * throughput|], and [prob_n]
    is the largest entry of [|sigma_n * throughput|] plus the largest entry
    of [|radiance * max(1, throughput)|].  On finite numbers, as long as no
    value leaves the range of [Float], these are the same formulas over the
    reals. *)
Theorem maximum_probabilities_scalars
    (m : Medium) (radiance : Spectrum) (mi : MediumInteraction3f)
    (throughput : Spectrum) :
  m_medium_sampling_mode m = Maximum ->
  let prob_s := dr.max (dr.abs (dr.mul (sigma_t mi) throughput)) in
  let prob_n :=
    fadd (dr.max (dr.abs (dr.mul (sigma_n mi) throughput)))
         (dr.max (dr.abs (dr.mul radiance (dr.maximum_sv (Fin 1) throughput)))) in
  snd (get_interaction_probabilities channels weights m radiance mi throughput)
  = medium_probabilities_max channels radiance mi throughput /\
  medium_probabilities_max channels radiance mi throughput
  = (dr.full channels prob_s, dr.full channels prob_n) /\
  (forall r st sn T : list R,
     reals_of channels radiance r ->
     reals_of channels (sigma_t mi) st ->
     reals_of channels (sigma_n mi) sn ->
     reals_of channels throughput T ->
     (0 < channels)%nat ->
     max_in_range r st sn T ->
     prob_s = Fin (ideal_max_s st T) /\
     prob_n = Fin (ideal_max_n r sn T)).
Proof.
  intros Hmode. cbv zeta.
  rewrite get_interaction_probabilities_by_mode, Hmode.
  split; [reflexivity|]. split; [reflexivity|].
  intros r st sn T [-> Lr] [-> Lt] [-> Ln] [-> LT] Hc (Rt & Rn & Rr & Rsum).
  assert (LW : length (map (Rmax 1) T) = channels)
    by (rewrite length_map; exact LT).
  rewrite max_weights_reals, !abs_mul_reals by assumption.
  rewrite !max_reals
    by (try apply abs_products_nonneg;
        apply abs_products_nonempty with channels; assumption).
  split; [reflexivity|].
  cbn [fadd]. apply round_in_range. exact Rsum.
Qed.

(** C5. In Mean mode [get_interaction_probabilities] returns the pair of
    [medium_probabilities_mean], which has the shape of Maximum mode with
    the mean over the channels in place of the largest entry, and with the
    radiance weighted by [0.5 + 0.5 * throughput] in place of
    [max(1, throughput)].  On finite numbers, as long as no value leaves the
    range of [Float], these are the same formulas over the reals. *)
Theorem mean_probabilities_scalars
    (m : Medium) (radiance : Spectrum) (mi : MediumInteraction3f)
    (throughput : Spectrum) :
  m_medium_sampling_mode m = Mean ->
  let prob_s := dr.mean (dr.abs (dr.mul (sigma_t mi) throughput)) in
  let prob_n :=
    fadd (dr.mean (dr.abs (dr.mul (sigma_n mi) throughput)))
         (dr.mean (dr.abs (dr.mul radiance
            (dr.add_sv (Fin (1/2)) (dr.mul_sv (Fin (1/2)) throughput))))) in
  snd (get_interaction_probabilities channels weights m radiance mi throughput)
  = medium_probabilities_mean channels radiance mi throughput /\
  medium_probabilities_mean channels radiance mi throughput
  = (dr.full channels prob_s, dr.full channels prob_n) /\
  (forall r st sn T : list R,
     reals_of channels radiance r ->
     reals_of channels (sigma_t mi) st ->
     reals_of channels (sigma_n mi) sn ->
     reals_of channels throughput T ->
     (0 < channels)%nat ->
     mean_in_range r st sn T ->
     prob_s = Fin (ideal_mean_s st T) /\
     prob_n = Fin (ideal_mean_n r sn T)).
Proof.
  intros Hmode. cbv zeta.
  rewrite get_interaction_probabilities_by_mode, Hmode.
  split; [reflexivity|]. split; [reflexivity|].
  intros r st sn T [-> Lr] [-> Lt] [-> Ln] [-> LT] Hc
    (RT & Rt & Rn & Rr & Rsum).
  assert (LW : length (map (fun t => 1/2 + 1/2 * t) T) = channels)
    by (rewrite length_map; exact LT).
  rewrite mean_weights_reals by exact RT.
  rewrite !abs_mul_reals
    by (apply in_range_of_total; [apply abs_products_nonneg | assumption]).
  rewrite !mean_reals
    by (try apply abs_products_nonneg; try assumption;
        apply abs_products_nonempty with channels; assumption).
  split; [reflexivity|].
  cbn [fadd]. apply round_in_range. exact Rsum.
Qed.

(** C10. In Analog mode the probabilities do not depend on the throughput:
    for any two throughputs [get_interaction_probabilities] returns the pair
    of [medium_probabilities_analog], which takes no throughput. *)
Theorem analog_ignores_throughput
    (m : Medium) (radiance : Spectrum) (mi : MediumInteraction3f)
    (throughput throughput' : Spectrum) :
  m_medium_sampling_mode m = Analogue ->
  snd (get_interaction_probabilities channels weights m radiance mi throughput)
  = snd (get_interaction_probabilities channels weights m radiance mi throughput')
  /\
  snd (get_interaction_probabilities channels weights m radiance mi throughput)
  = medium_probabilities_analog radiance mi.
Proof.
  intros Hmode.
  rewrite !get_interaction_probabilities_by_mode, Hmode.
  split; reflexivity.
Qed.

End Heuristics.

Lemma analog_probabilities_per_channel_witness :
  snd (get_interaction_probabilities 3 unit_weights (scenario_medium Analogue)
         [Fin 3; Fin 0; Fin 0] rgb_interaction [Fin 2; Fin 4; Fin 8])
  = ([Fin 1; Fin 2; Fin 3], [Fin 3; Fin 1; Fin 1]).
Proof.
  destruct (analog_probabilities_per_channel 3 unit_weights
              (scenario_medium Analogue) [Fin 3; Fin 0; Fin 0] rgb_interaction
              [Fin 2; Fin 4; Fin 8] eq_refl eq_refl eq_refl) as [H1 H2].
  rewrite H1.
  destruct (medium_probabilities_analog _ _) as [prob_s prob_n].
  destruct H2 as (-> & _ & _ & H).
  rewrite (H [3; 0; 0] [0; 0; 0]);
    [ | split; reflexivity | split; reflexivity | lia
      | split; real_eval; repeat constructor; real_eval; unfold FLT_MAX; lra ].
  cbn [map ideal_analog_n]. real_eval. same_values; reflexivity.
Defined.

Lemma maximum_probabilities_scalars_witness :
  snd (get_interaction_probabilities 3 unit_weights (scenario_medium Maximum)
         [Fin 3; Fin 0; Fin 0] rgb_interaction [Fin 2; Fin 4; Fin 8])
  = (dr.full 3 (Fin 24), dr.full 3 (Fin 6)).
Proof.
  destruct (maximum_probabilities_scalars 3 unit_weights
              (scenario_medium Maximum) [Fin 3; Fin 0; Fin 0] rgb_interaction
              [Fin 2; Fin 4; Fin 8] eq_refl) as (H1 & H2 & H).
  rewrite H1, H2.
  destruct (H [3; 0; 0] [1; 2; 3] [0; 0; 0] [2; 4; 8]) as [-> ->];
    [ split; reflexivity | split; reflexivity | split; reflexivity
    | split; reflexivity | lia
    | repeat split; real_eval; repeat constructor; real_eval;
      unfold FLT_MAX; lra
    | ].
  real_eval. unfold dr.full; cbn [repeat]. same_values.
Defined.

Lemma mean_probabilities_scalars_witness :
  snd (get_interaction_probabilities 3 unit_weights (scenario_medium Mean)
         [Fin 3; Fin 0; Fin 0] rgb_interaction [Fin 2; Fin 4; Fin 8])
  = (dr.full 3 (Fin (34/3)), dr.full 3 (Fin (3/2))).
Proof.
  destruct (mean_probabilities_scalars 3 unit_weights
              (scenario_medium Mean) [Fin 3; Fin 0; Fin 0] rgb_interaction
              [Fin 2; Fin 4; Fin 8] eq_refl) as (H1 & H2 & H).
  rewrite H1, H2.
  destruct (H [3; 0; 0] [1; 2; 3] [0; 0; 0] [2; 4; 8]) as [-> ->];
    [ split; reflexivity | split; reflexivity | split; reflexivity
    | split; reflexivity | lia
    | repeat split; real_eval; repeat constructor; real_eval;
      unfold FLT_MAX; lra
    | ].
  real_eval. unfold dr.full; cbn [repeat]. same_values.
Defined.

Lemma analog_ignores_throughput_witness :
  snd (get_interaction_probabilities 3 unit_weights (scenario_medium Analogue)
         [Fin 3; Fin 0; Fin 0] rgb_interaction [Fin 1; Fin 1; Fin 1])
  = snd (get_interaction_probabilities 3 unit_weights (scenario_medium Analogue)
           [Fin 3; Fin 0; Fin 0] rgb_interaction [Fin 2; Fin 4; Fin 8])
  /\
  snd (get_interaction_probabilities 3 unit_weights (scenario_medium Analogue)
         [Fin 3; Fin 0; Fin 0] rgb_interaction [Fin 1; Fin 1; Fin 1])
  = medium_probabilities_analog [Fin 3; Fin 0; Fin 0] rgb_interaction.
Proof.
  apply (analog_ignores_throughput 3 unit_weights (scenario_medium Analogue)
           [Fin 3; Fin 0; Fin 0] rgb_interaction).
  reflexivity.
Defined.

(** ** Sign of the probabilities *)

Lemma nonneg_all_ok (a : Spectrum) :
  Forall nonneg_num a -> Forall probability_ok a.
Proof.
  intros H; induction H; constructor; [apply nonneg_num_sound|]; assumption.
Qed.

Lemma finite_all_nonneg (a : Spectrum) :
  Forall finite_nonneg a -> Forall nonneg_num a.
Proof.
  intros H; induction H; constructor; auto using finite_nonneg_num.
Qed.

(** The absolute value of the product of two arrays of finite,
    non-negative numbers holds non-negative numbers only. *)
Lemma abs_mul_nonneg (a b : Spectrum) :
  Forall finite_nonneg a -> Forall finite_nonneg b ->
  Forall nonneg_num (dr.abs (dr.mul a b)).
Proof.
  intros Ha Hb. unfold dr.abs, dr.mul.
  apply map_Forall with (A := nonneg_num); [exact fabs_nonneg|].
  apply zip_with_Forall with (A := finite_nonneg) (B := finite_nonneg);
    auto using fmul_finite_nonneg.
Qed.

Lemma abs_mul_length (n : nat) (a b : Spectrum) :
  length a = n -> length b = n -> length (dr.abs (dr.mul a b)) = n.
Proof.
  intros Ha Hb. unfold dr.abs, dr.mul.
  rewrite length_map, zip_with_length, Ha, Hb. apply Nat.min_id.
Qed.

(** A scalar that is a non-negative number whenever there is a channel
    gives fine probabilities on every channel. *)
Lemma full_ok (n : nat) (x : Float) :
  ((0 < n)%nat -> nonneg_num x) ->
  length (dr.full n x) = n /\ Forall probability_ok (dr.full n x).
Proof.
  intros Hx. split; [apply full_length|].
  destruct n as [|k]; [constructor|].
  apply nonneg_all_ok, full_Forall, Hx. lia.
Qed.

Section Sign.

Variable channels : nat.

Variables (radiance throughput : Spectrum) (mi : MediumInteraction3f).

Hypothesis radiance_channels : length radiance = channels.
Hypothesis sigma_t_channels : length (sigma_t mi) = channels.
Hypothesis sigma_n_channels : length (sigma_n mi) = channels.
Hypothesis throughput_channels : length throughput = channels.
Hypothesis radiance_finite : Forall finite_nonneg radiance.
Hypothesis sigma_t_finite : Forall finite_nonneg (sigma_t mi).
Hypothesis sigma_n_finite : Forall finite_nonneg (sigma_n mi).
Hypothesis throughput_finite : Forall finite_nonneg throughput.

Lemma analog_ok :
  probabilities_ok channels (medium_probabilities_analog radiance mi).
Proof.
  unfold probabilities_ok, medium_probabilities_analog; cbn [fst snd].
  split; [split; [exact sigma_t_channels
                 | apply nonneg_all_ok, finite_all_nonneg, sigma_t_finite]|].
  unfold dr.add, dr.maximum_vs. split.
  - rewrite zip_with_length, length_map, radiance_channels, sigma_n_channels.
    apply Nat.min_id.
  - apply nonneg_all_ok.
    apply zip_with_Forall with (A := nonneg_num) (B := nonneg_num);
      [exact fadd_nonneg | apply finite_all_nonneg, sigma_n_finite |].
    pose proof radiance_finite as Hr.
    destruct radiance as [|r0 rs]; [constructor|].
    apply map_Forall with (A := nonneg_num); [|apply finite_all_nonneg, Hr].
    intros x Hx. apply fmaximum_nonneg; [exact Hx|].
    apply mean_nonneg; [discriminate|].
    apply map_Forall with (A := nonneg_num);
      [exact fabs_nonneg | apply finite_all_nonneg, Hr].
Qed.

(** With a channel to reduce over, the largest entry and the mean of
    [|a * b|] are non-negative numbers. *)
Lemma reduced_nonneg (a b : Spectrum) :
  length a = channels -> length b = channels ->
  Forall finite_nonneg a -> Forall finite_nonneg b ->
  (0 < channels)%nat ->
  nonneg_num (dr.max (dr.abs (dr.mul a b))) /\
  nonneg_num (dr.mean (dr.abs (dr.mul a b))).
Proof.
  intros La Lb Ha Hb Hc.
  assert (Hne : dr.abs (dr.mul a b) <> []).
  { intros E. pose proof (abs_mul_length channels a b La Lb) as L.
    rewrite E in L. simpl in L. lia. }
  split; [apply max_nonneg | apply mean_nonneg];
    auto using abs_mul_nonneg.
Qed.

Lemma max_ok :
  probabilities_ok channels
    (medium_probabilities_max channels radiance mi throughput).
Proof.
  assert (Hw : Forall finite_nonneg (dr.maximum_sv (Fin 1) throughput))
    by (apply map_Forall with (A := finite_nonneg);
        auto using max_weight_finite).
  assert (Lw : length (dr.maximum_sv (Fin 1) throughput) = channels)
    by (unfold dr.maximum_sv; rewrite length_map; exact throughput_channels).
  unfold probabilities_ok, medium_probabilities_max; cbn [fst snd].
  split; apply full_ok; intros Hc.
  - apply reduced_nonneg; assumption.
  - apply fadd_nonneg; apply reduced_nonneg; assumption.
Qed.

Lemma mean_ok :
  probabilities_ok channels
    (medium_probabilities_mean channels radiance mi throughput).
Proof.
  assert (Hw : Forall finite_nonneg
                 (dr.add_sv (Fin (1/2)) (dr.mul_sv (Fin (1/2)) throughput))).
  { unfold dr.add_sv, dr.mul_sv. rewrite map_map.
    apply map_Forall with (A := finite_nonneg); auto using mean_weight_finite. }
  assert (Lw : length (dr.add_sv (Fin (1/2)) (dr.mul_sv (Fin (1/2)) throughput))
               = channels)
    by (unfold dr.add_sv, dr.mul_sv; rewrite !length_map;
        exact throughput_channels).
  unfold probabilities_ok, medium_probabilities_mean; cbn [fst snd].
  split; apply full_ok; intros Hc.
  - apply reduced_nonneg; assumption.
  - apply fadd_nonneg; apply reduced_nonneg; assumption.
Qed.

End Sign.

(** C8. In each of the three modes, finite non-negative radiance,
    coefficients and throughput give probabilities that are at least zero
    and are not [NaN], on every channel: this holds of each of the three
    heuristics, hence of [get_interaction_probabilities] whatever the mode
    of the medium. *)
Theorem probabilities_nonneg_not_nan
    (channels : nat) (radiance : Spectrum) (mi : MediumInteraction3f)
    (throughput : Spectrum) :
  length radiance = channels ->
  length (sigma_t mi) = channels ->
  length (sigma_n mi) = channels ->
  length throughput = channels ->
  Forall finite_nonneg radiance ->
  Forall finite_nonneg (sigma_t mi) ->
  Forall finite_nonneg (sigma_n mi) ->
  Forall finite_nonneg throughput ->
  probabilities_ok channels (medium_probabilities_analog radiance mi) /\
  probabilities_ok channels
    (medium_probabilities_max channels radiance mi throughput) /\
  probabilities_ok channels
    (medium_probabilities_mean channels radiance mi throughput) /\
  forall weights m,
    probabilities_ok channels
      (snd (get_interaction_probabilities channels weights m radiance mi
              throughput)).
Proof.
  intros Lr Lt Ln Lth Hr Ht Hn Hth.
  pose proof (analog_ok channels radiance mi Lr Lt Ln Hr Ht Hn) as Ha.
  pose proof (max_ok channels radiance throughput mi Lr Lt Ln Lth Hr Ht Hn Hth)
    as Hx.
  pose proof (mean_ok channels radiance throughput mi Lr Lt Ln Lth Hr Ht Hn Hth)
    as He.
  repeat split; try (apply Ha); try (apply Hx); try (apply He).
  all: rewrite get_interaction_probabilities_by_mode;
    destruct (m_medium_sampling_mode m);
    try (apply Ha); try (apply Hx); try (apply He).
Qed.

Lemma probabilities_nonneg_not_nan_witness :
  probabilities_ok 3
    (medium_probabilities_analog [Fin 3; Fin 0; Fin 0] rgb_interaction) /\
  probabilities_ok 3
    (medium_probabilities_max 3 [Fin 3; Fin 0; Fin 0] rgb_interaction
       [Fin 2; Fin 4; Fin 8]) /\
  probabilities_ok 3
    (medium_probabilities_mean 3 [Fin 3; Fin 0; Fin 0] rgb_interaction
       [Fin 2; Fin 4; Fin 8]) /\
  forall weights m,
    probabilities_ok 3
      (snd (get_interaction_probabilities 3 weights m [Fin 3; Fin 0; Fin 0]
              rgb_interaction [Fin 2; Fin 4; Fin 8])).
Proof.
  apply (probabilities_nonneg_not_nan 3 [Fin 3; Fin 0; Fin 0] rgb_interaction
           [Fin 2; Fin 4; Fin 8]);
    try reflexivity; finite_literals.
Defined.

(** ** One channel against several *)

Lemma fmul_one_r (v : Float) : finite v -> fmul v (Fin 1) = v.
Proof.
  intros [x [-> Hx]]; simpl.
  replace (x * 1) with x by lra. apply round_in_range; exact Hx.
Qed.

Lemma fdiv_size_one (v : Float) : finite v -> fdiv v (of_size 1) = v.
Proof.
  intros [x [-> Hx]]; unfold of_size; simpl.
  destruct (Reqb 1 0) eqn:E; [apply Reqb_true in E; lra|].
  replace (x / 1) with x by lra. apply round_in_range; exact Hx.
Qed.

Lemma finite_nonneg_finite (v : Float) : finite_nonneg v -> finite v.
Proof. intros [x [-> Hx]]; exists x; split; [reflexivity | lra]. Qed.

Lemma fabs_finite (v : Float) : finite v -> finite_nonneg (fabs v).
Proof.
  intros [x [-> Hx]]; exists (Rabs x); split; [reflexivity|].
  split; [apply Rabs_pos | apply Rabs_le; exact Hx].
Qed.

Lemma fabs_of_nonneg (v : Float) : finite_nonneg v -> fabs v = v.
Proof. intros [x [-> Hx]]; simpl. rewrite Rabs_right by lra. reflexivity. Qed.

(** The larger of a number and its absolute value is the absolute value. *)
Lemma fmaximum_fabs (v : Float) : finite v -> fmaximum v (fabs v) = fabs v.
Proof.
  intros [x [-> Hx]]; unfold fmaximum; simpl.
  destruct (Rltb x (Rabs x)) eqn:E; [reflexivity|].
  apply Rltb_false in E. pose proof (Rle_abs x). f_equal; lra.
Qed.

Lemma fmaximum_one_one : fmaximum (Fin 1) (Fin 1) = Fin 1.
Proof. unfold fmaximum; destruct (fltb (Fin 1) (Fin 1)); reflexivity. Qed.

Lemma mean_weight_one : fadd (Fin (1/2)) (fmul (Fin (1/2)) (Fin 1)) = Fin 1.
Proof.
  pose proof FLT_MAX_ge_1 as H1. simpl.
  rewrite (round_in_range (1/2 * 1)) by lra; simpl.
  rewrite round_in_range by lra. f_equal; lra.
Qed.

Section OneChannel.

Variables (r st sn : Float) (mi : MediumInteraction3f).

Hypothesis radiance_finite : finite r.
Hypothesis sigma_t_finite : finite_nonneg st.
Hypothesis sigma_n_finite : finite_nonneg sn.
Hypothesis sigma_t_one : sigma_t mi = [st].
Hypothesis sigma_n_one : sigma_n mi = [sn].

(** With one channel the reductions of Analog mode leave [|r|]. *)
Lemma analog_one_channel :
  medium_probabilities_analog [r] mi = ([st], [fadd sn (fabs r)]).
Proof.
  unfold medium_probabilities_analog.
  rewrite sigma_t_one, sigma_n_one.
  unfold dr.add, dr.maximum_vs, dr.mean, dr.abs, dr.sum.
  cbn [map length fold_left dr.zip_with].
  rewrite fdiv_size_one
    by (apply finite_nonneg_finite, fabs_finite, radiance_finite).
  rewrite fmaximum_fabs by exact radiance_finite. reflexivity.
Qed.

(** At throughput one the weights of Maximum mode are one. *)
Lemma max_one_channel :
  medium_probabilities_max 1 [r] mi [Fin 1] = ([st], [fadd sn (fabs r)]).
Proof.
  unfold medium_probabilities_max.
  rewrite sigma_t_one, sigma_n_one.
  unfold dr.mul, dr.abs, dr.maximum_sv, dr.max, dr.full.
  cbn [map length fold_left dr.zip_with repeat].
  rewrite fmaximum_one_one.
  rewrite !fmul_one_r by auto using finite_nonneg_finite.
  rewrite (fabs_of_nonneg st), (fabs_of_nonneg sn) by assumption.
  reflexivity.
Qed.

(** At throughput one the weights of Mean mode are one. *)
Lemma mean_one_channel :
  medium_probabilities_mean 1 [r] mi [Fin 1] = ([st], [fadd sn (fabs r)]).
Proof.
  pose proof (finite_nonneg_finite _ sigma_t_finite) as Ft.
  pose proof (finite_nonneg_finite _ sigma_n_finite) as Fn.
  pose proof (finite_nonneg_finite _ (fabs_finite _ radiance_finite)) as Fr.
  unfold medium_probabilities_mean.
  rewrite sigma_t_one, sigma_n_one.
  unfold dr.mul, dr.abs, dr.add_sv, dr.mul_sv, dr.mean, dr.sum, dr.full.
  cbn [map length fold_left dr.zip_with repeat].
  rewrite mean_weight_one.
  rewrite !fmul_one_r by assumption.
  rewrite (fabs_of_nonneg st), (fabs_of_nonneg sn) by assumption.
  rewrite !fdiv_size_one by assumption.
  reflexivity.
Qed.

End OneChannel.

(** The three modes on one channel, with radiance 1, [sigma_t = 1],
    [sigma_n = 0] and throughput 1/2. *)
Example analog_at_half_throughput :
  medium_probabilities_analog [Fin 1] mono_interaction = ([Fin 1], [Fin 1]).
Proof. unfold_probabilities. float_eval; same_values. Qed.

Example maximum_at_half_throughput :
  medium_probabilities_max 1 [Fin 1] mono_interaction [Fin (1/2)]
  = ([Fin (1/2)], [Fin 1]).
Proof. unfold_probabilities. float_eval; same_values. Qed.

Example mean_at_half_throughput :
  medium_probabilities_mean 1 [Fin 1] mono_interaction [Fin (1/2)]
  = ([Fin (1/2)], [Fin (3/4)]).
Proof. unfold_probabilities. float_eval; same_values. Qed.

(** The three modes on three channels, with no radiance,
    [sigma_t = (1, 2, 3)], [sigma_n = 0] and throughput one. *)
Example analog_on_three_channels :
  fst (medium_probabilities_analog [Fin 0; Fin 0; Fin 0] rgb_interaction)
  = [Fin 1; Fin 2; Fin 3].
Proof. reflexivity. Qed.

Example maximum_on_three_channels :
  fst (medium_probabilities_max 3 [Fin 0; Fin 0; Fin 0] rgb_interaction
         [Fin 1; Fin 1; Fin 1])
  = [Fin 3; Fin 3; Fin 3].
Proof. unfold_probabilities. float_eval; same_values. Qed.

Example mean_on_three_channels :
  fst (medium_probabilities_mean 3 [Fin 0; Fin 0; Fin 0] rgb_interaction
         [Fin 1; Fin 1; Fin 1])
  = [Fin 2; Fin 2; Fin 2].
Proof. unfold_probabilities. float_eval; same_values. Qed.

(** C2, as stated, fails: on one channel with radiance 1, extinction 1, no
    null collisions and throughput 1/2, Analog mode gives [prob_s = 1] and
    Maximum mode gives [prob_s = 1/2]. *)
Lemma single_channel_modes_differ :
  medium_probabilities_analog [Fin 1] mono_interaction
  <> medium_probabilities_max 1 [Fin 1] mono_interaction [Fin (1/2)].
Proof.
  rewrite analog_at_half_throughput, maximum_at_half_throughput.
  intros H; injection H; lra.
Qed.

(** C2, amended.  On one channel, with finite values, non-negative
    [sigma_t] and [sigma_n], and throughput one, the three heuristics return
    the same [prob_s] and [prob_n]; and there is a three-channel input, with
    [sigma_t] varying over the channels, on which they return three
    different results. *)
Theorem modes_agree_on_one_channel_and_differ_on_three :
  (forall (r st sn : Float) (mi : MediumInteraction3f),
     finite r -> finite_nonneg st -> finite_nonneg sn ->
     sigma_t mi = [st] -> sigma_n mi = [sn] ->
     medium_probabilities_analog [r] mi
     = medium_probabilities_max 1 [r] mi [Fin 1] /\
     medium_probabilities_analog [r] mi
     = medium_probabilities_mean 1 [r] mi [Fin 1])
  /\
  (exists (radiance throughput : Spectrum) (mi : MediumInteraction3f),
     length radiance = 3%nat /\ length throughput = 3%nat /\
     sigma_t mi = [Fin 1; Fin 2; Fin 3] /\
     medium_probabilities_analog radiance mi
     <> medium_probabilities_max 3 radiance mi throughput /\
     medium_probabilities_analog radiance mi
     <> medium_probabilities_mean 3 radiance mi throughput /\
     medium_probabilities_max 3 radiance mi throughput
     <> medium_probabilities_mean 3 radiance mi throughput).
Proof.
  split.
  - intros r st sn mi Hr Ht Hn Et En.
    rewrite (analog_one_channel r st sn mi), (max_one_channel r st sn mi),
      (mean_one_channel r st sn mi) by assumption.
    split; reflexivity.
  - exists [Fin 0; Fin 0; Fin 0], [Fin 1; Fin 1; Fin 1], rgb_interaction.
    repeat split; intros H; apply (f_equal fst) in H; revert H;
      rewrite ?analog_on_three_channels, ?maximum_on_three_channels,
        ?mean_on_three_channels;
      intros H; injection H; lra.
Qed.

Lemma modes_agree_on_one_channel_witness :
  medium_probabilities_analog [Fin 3] mono_interaction
  = medium_probabilities_max 1 [Fin 3] mono_interaction [Fin 1] /\
  medium_probabilities_analog [Fin 3] mono_interaction
  = medium_probabilities_mean 1 [Fin 3] mono_interaction [Fin 1].
Proof.
  apply (proj1 modes_agree_on_one_channel_and_differ_on_three
           (Fin 3) (Fin 1) (Fin 0) mono_interaction);
    try reflexivity; finite_literals.
Defined.

(** ** Free-flight sampling *)

Section Sampling.

Variable channels : nat.

(** Past the test of the majorant, the division cannot fault. *)
Lemma free_flight_distance_defined (t_min sample sigma_maj : Float) :
  fleb sigma_maj (Fin 0) = false ->
  free_flight_distance t_min sample sigma_maj
  = Some (fsub t_min (fdiv (flog (fsub (Fin 1) sample)) sigma_maj)).
Proof.
  intros Hmaj. unfold free_flight_distance, checked_div.
  destruct (is_zero sigma_maj) eqn:Hz; [|reflexivity].
  destruct sigma_maj as [|s|x]; simpl in Hz; try discriminate.
  apply Reqb_true in Hz; subst x. simpl in Hmaj.
  apply Rleb_false in Hmaj. lra.
Qed.

(** [sample_interaction] returns an interaction on every input. *)
Lemma sample_interaction_total
    (m : Medium) (ray : Ray3f) (sample : Float) (channel : nat)
    (active : bool) :
  exists mi, sample_interaction channels m ray sample channel active = Some mi.
Proof.
  unfold sample_interaction.
  destruct (intersect_aabb m ray) as [[valid t_min] t_max].
  destruct (negb (active && valid)); [eauto|].
  destruct (fleb (sampling_majorant channels m ray channel) (Fin 0)) eqn:Hmaj;
    [eauto|].
  rewrite free_flight_distance_defined by exact Hmaj.
  destruct (fltb t_max _); [eauto|].
  destruct (get_scattering_coefficients m _ true) as [[s n] e]. eauto.
Qed.

(** C6. When the majorant the distance is drawn with is zero or negative,
    [sample_interaction] returns an interaction that is not active, the same
    for every sample: the exponential step is not reached.  And no input
    makes the division by the majorant fault. *)
Theorem zero_majorant_short_circuits
    (m : Medium) (ray : Ray3f) (channel : nat) (active : bool) :
  (fleb (sampling_majorant channels m ray channel) (Fin 0) = true ->
   exists mi,
     mi_active mi = false /\
     forall sample,
       sample_interaction channels m ray sample channel active = Some mi)
  /\
  (forall sample,
     sample_interaction channels m ray sample channel active <> None).
Proof.
  split.
  - intros Hmaj. unfold sample_interaction.
    destruct (intersect_aabb m ray) as [[valid t_min] t_max].
    destruct (negb (active && valid)).
    + exists (interaction_at channels ray (Inf false) false); split;
        [reflexivity | intros; reflexivity].
    + rewrite Hmaj.
      exists (interaction_at channels ray t_max false); split;
        [reflexivity | intros; reflexivity].
  - intros sample.
    destruct (sample_interaction_total m ray sample channel active) as [mi ->].
    discriminate.
Qed.

(** C7. When the sampled distance exceeds the exit distance [t_max] of the
    support, the interaction returned is not active and its distance is
    [t_max]; when the ray does not cross the support, the interaction
    returned is not active. *)
Theorem exit_returns_boundary_and_miss_is_inactive
    (m : Medium) (ray : Ray3f) (sample : Float) (channel : nat) :
  (forall t_min t_max t,
     intersect_aabb m ray = (true, t_min, t_max) ->
     free_flight_distance t_min sample
       (sampling_majorant channels m ray channel) = Some t ->
     fltb t_max t = true ->
     exists mi,
       sample_interaction channels m ray sample channel true = Some mi /\
       mi_active mi = false /\ mi_t mi = t_max)
  /\
  (forall t_min t_max active,
     intersect_aabb m ray = (false, t_min, t_max) ->
     exists mi,
       sample_interaction channels m ray sample channel active = Some mi /\
       mi_active mi = false).
Proof.
  split.
  - intros t_min t_max t Hbox Ht Hexit. unfold sample_interaction.
    rewrite Hbox; cbn [negb andb].
    destruct (fleb (sampling_majorant channels m ray channel) (Fin 0)).
    + exists (interaction_at channels ray t_max false); repeat split.
    + rewrite Ht, Hexit.
      exists (interaction_at channels ray t_max false); repeat split.
  - intros t_min t_max active Hbox. unfold sample_interaction.
    rewrite Hbox, andb_false_r; cbn [negb].
    exists (interaction_at channels ray (Inf false) false); repeat split.
Qed.






End Sampling.

Lemma zero_majorant_short_circuits_witness :
  exists mi,
    mi_active mi = false /\
    forall sample,
      sample_interaction 1 clear_medium x_axis_ray sample 0 true = Some mi.
Proof.
  apply (proj1 (zero_majorant_short_circuits 1 clear_medium x_axis_ray 0 true)).
  unfold_medium. float_eval; reflexivity.
Defined.

(** With a unit majorant, entry distance 0 and [1 - sample = exp(-d)], the
    distance sampled is [d]. *)
Lemma unit_majorant_distance (d : R) :
  0 <= d <= FLT_MAX ->
  free_flight_distance (Fin 0) (Fin (1 - exp (- d))) (Fin 1) = Some (Fin d).
Proof.
  intros Hd. pose proof FLT_MAX_ge_1 as H1.
  pose proof (exp_nonpos_le_1 (- d)) as He.
  assert (E1 : fsub (Fin 1) (Fin (1 - exp (- d))) = Fin (exp (- d))).
  { unfold fsub; cbn [fneg fadd].
    rewrite round_in_range by lra. f_equal; lra. }
  assert (E2 : flog (Fin (exp (- d))) = Fin (- d)).
  { cbn [flog].
    destruct (Rltb (exp (- d)) 0) eqn:A; [apply Rltb_true in A; lra|].
    destruct (Reqb (exp (- d)) 0) eqn:B; [apply Reqb_true in B; lra|].
    rewrite ln_exp. apply round_in_range. lra. }
  unfold free_flight_distance, checked_div. rewrite E1, E2.
  cbn [is_zero fdiv].
  destruct (Reqb 1 0) eqn:E; [apply Reqb_true in E; lra|].
  rewrite round_in_range by lra.
  unfold fsub; cbn [fneg fadd]. rewrite round_in_range by lra.
  same_values.
Qed.

Lemma exit_returns_boundary_and_miss_is_inactive_witness :
  (exists mi,
     sample_interaction 1 (scenario_medium Analogue) x_axis_ray
       (Fin (1 - exp (-20))) 0 true = Some mi /\
     mi_active mi = false /\ mi_t mi = Fin 10)
  /\
  (exists mi,
     sample_interaction 1 missed_medium x_axis_ray (Fin (1/2)) 0 true
     = Some mi /\
     mi_active mi = false).
Proof.
  split.
  - apply (proj1 (exit_returns_boundary_and_miss_is_inactive 1
                    (scenario_medium Analogue) x_axis_ray
                    (Fin (1 - exp (-20))) 0)
             (Fin 0) (Fin 10) (Fin 20)).
    + reflexivity.
    + apply (unit_majorant_distance 20). unfold FLT_MAX; lra.
    + float_eval; reflexivity.
  - apply (proj2 (exit_returns_boundary_and_miss_is_inactive 1
                    missed_medium x_axis_ray (Fin (1/2)) 0)
             (Fin 0) (Fin 0) true).
    reflexivity.
Defined.



(** ** Transmittance and sampling density *)

(** Attenuation over the length [L] at the constant extinction [sigma]. *)
Lemma attenuation_finite (sigma L : R) :
  0 <= sigma -> 0 <= L -> sigma * L <= FLT_MAX ->
  fexp (fmul (fneg (Fin sigma)) (Fin L)) = Fin (exp (- (sigma * L))).
Proof.
  intros Hs HL Hr. pose proof FLT_MAX_ge_1 as H1.
  assert (0 <= sigma * L) by (apply Rmult_le_pos; assumption).
  cbn [fneg fmul]. replace (- sigma * L) with (- (sigma * L)) by ring.
  rewrite round_in_range by lra. cbn [fexp].
  pose proof (exp_nonpos_le_1 (- (sigma * L))).
  apply round_in_range. lra.
Qed.

(** C1. The two cases of [transmittance_eval_pdf], channel by channel, with
    [sigma_maj] the majorant at the interaction.  If [mi.t <= si.t], the
    transmittance is [exp(-sigma_maj * mi.t)] and the density is [sigma_t]
    times it.  If [mi.t > si.t], both are [exp(-sigma_maj * si.t)].  In
    particular, at the constant extinction [sigma], with [si.t = L] and
    [mi.t > L], both are [exp(-(sigma * L))]. *)
Theorem transmittance_eval_pdf_cases
    (channels : nat) (m : Medium) (mi : MediumInteraction3f)
    (si : SurfaceInteraction3f) (active : bool) :
  length (get_majorant m mi active) = channels ->
  length (sigma_t mi) = channels ->
  let sigma_maj := get_majorant m mi active in
  let '(tr, pdf) := transmittance_eval_pdf m mi si active in
  (fleb (mi_t mi) (si_t si) = true ->
   forall i, (i < channels)%nat ->
     nth i tr NaN = fexp (fmul (fneg (nth i sigma_maj NaN)) (mi_t mi)) /\
     nth i pdf NaN =
       fmul (nth i (sigma_t mi) NaN)
            (fexp (fmul (fneg (nth i sigma_maj NaN)) (mi_t mi))))
  /\
  (fltb (si_t si) (mi_t mi) = true ->
   forall i, (i < channels)%nat ->
     nth i tr NaN = fexp (fmul (fneg (nth i sigma_maj NaN)) (si_t si)) /\
     nth i pdf NaN = fexp (fmul (fneg (nth i sigma_maj NaN)) (si_t si)))
  /\
  (forall sigma L : R,
     0 <= sigma -> 0 <= L -> sigma * L <= FLT_MAX ->
     sigma_maj = dr.full channels (Fin sigma) ->
     si_t si = Fin L ->
     fltb (Fin L) (mi_t mi) = true ->
     tr = dr.full channels (Fin (exp (- (sigma * L)))) /\
     pdf = dr.full channels (Fin (exp (- (sigma * L))))).
Proof.
  intros Lmaj Lt. cbv zeta. unfold transmittance_eval_pdf.
  assert (Hnth : forall t i, (i < channels)%nat ->
            nth i (dr.exp (dr.mul_vs (dr.neg (get_majorant m mi active)) t)) NaN
            = fexp (fmul (fneg (nth i (get_majorant m mi active) NaN)) t)).
  { intros t i Hi. unfold dr.exp, dr.mul_vs, dr.neg.
    rewrite !map_nth_in by (rewrite ?length_map; lia). reflexivity. }
  destruct (fleb (mi_t mi) (si_t si)) eqn:Hle; cbv beta iota zeta;
    (split; [|split]).
  - intros _ i Hi. split; [apply Hnth; exact Hi|].
    unfold dr.mul. rewrite zip_with_nth.
    + rewrite Hnth by exact Hi. reflexivity.
    + lia.
    + unfold dr.exp, dr.mul_vs, dr.neg. rewrite !length_map. lia.
  - intros Hlt. rewrite (fltb_not_fleb _ _ Hlt) in Hle. discriminate.
  - intros sigma L _ _ _ _ HsiL Hlt. rewrite <- HsiL in Hlt.
    rewrite (fltb_not_fleb _ _ Hlt) in Hle. discriminate.
  - intros Habs; discriminate.
  - intros _ i Hi. split; apply Hnth; exact Hi.
  - intros sigma L Hs HL Hr Hmaj HsiL _.
    rewrite HsiL, Hmaj.
    unfold dr.exp, dr.mul_vs, dr.neg, dr.full.
    rewrite !map_repeat, attenuation_finite by assumption.
    split; reflexivity.
Qed.

Lemma transmittance_eval_pdf_cases_witness :
  (let '(tr, pdf) :=
     transmittance_eval_pdf (scenario_medium Analogue)
       (interaction_with [Fin 1] [Fin 0] [Fin 1] (Fin 5)) {| si_t := Fin 10 |}
       true in
   nth 0 tr NaN = fexp (fmul (fneg (Fin 1)) (Fin 5)) /\
   nth 0 pdf NaN = fmul (Fin 1) (fexp (fmul (fneg (Fin 1)) (Fin 5))))
  /\
  transmittance_eval_pdf (scenario_medium Analogue)
    (interaction_with [Fin 1] [Fin 0] [Fin 1] (Fin 20)) {| si_t := Fin 10 |} true
  = (dr.full 1 (Fin (exp (- (1 * 10)))), dr.full 1 (Fin (exp (- (1 * 10))))).
Proof.
  assert (Hmaj : forall mi active,
            get_majorant (scenario_medium Analogue) mi active = [Fin 1]).
  { intros mi active. unfold_medium. float_eval. same_values. }
  split.
  - pose proof (transmittance_eval_pdf_cases 1 (scenario_medium Analogue)
                  (interaction_with [Fin 1] [Fin 0] [Fin 1] (Fin 5))
                  {| si_t := Fin 10 |} true eq_refl eq_refl) as H.
    cbv zeta in H. rewrite Hmaj in H.
    destruct (transmittance_eval_pdf _ _ _ _) as [tr pdf].
    destruct H as (H & _ & _).
    refine (H _ 0%nat _); [unfold_medium; float_eval; reflexivity | lia].
  - pose proof (transmittance_eval_pdf_cases 1 (scenario_medium Analogue)
                  (interaction_with [Fin 1] [Fin 0] [Fin 1] (Fin 20))
                  {| si_t := Fin 10 |} true eq_refl eq_refl) as H.
    cbv zeta in H. rewrite Hmaj in H.
    destruct (transmittance_eval_pdf _ _ _ _) as [tr pdf].
    destruct H as (_ & _ & H).
    destruct (H 1 10) as [-> ->]; try (unfold FLT_MAX; lra); try reflexivity.
    unfold_medium; float_eval; reflexivity.
Defined.

(** * Further properties of the three heuristics

    What [medium_probabilities_analog], [medium_probabilities_max] and
    [medium_probabilities_mean] (medium.h, lines 47-73) do on a medium that
    does not emit, on values of either sign, and at the ends of the range
    of the throughput. *)

(** ** Results of the operations *)

Lemma round_representable (x : R) : representable (round x).
Proof.
  unfold round, representable. real_cases; try exact I.
  unfold in_range; lra.
Qed.

Lemma finite_representable (v : Float) : finite v -> representable v.
Proof. intros [x [-> Hx]]; exact Hx. Qed.

Lemma fadd_representable (a b : Float) : representable (fadd a b).
Proof.
  destruct a as [|s|x], b as [|s'|y]; simpl; try exact I.
  - destruct (Bool.eqb s s'); exact I.
  - apply round_representable.
Qed.

Lemma fmul_representable (a b : Float) : representable (fmul a b).
Proof.
  destruct a as [|s|x], b as [|s'|y]; simpl; try exact I.
  - destruct (Reqb y 0); exact I.
  - destruct (Reqb x 0); exact I.
  - apply round_representable.
Qed.

Lemma fdiv_representable (a b : Float) : representable (fdiv a b).
Proof.
  destruct a as [|s|x], b as [|s'|y]; simpl; try exact I.
  - pose proof FLT_MAX_ge_1. unfold in_range; lra.
  - destruct (Reqb y 0); [destruct (Reqb x 0); exact I|].
    apply round_representable.
Qed.

Lemma fabs_representable (v : Float) : representable v -> representable (fabs v).
Proof.
  destruct v as [|s|x]; simpl; auto.
  intros Hx. unfold in_range. split.
  - pose proof (Rabs_pos x). pose proof FLT_MAX_ge_1. lra.
  - apply Rabs_le; exact Hx.
Qed.

Lemma fmaximum_representable (a b : Float) :
  representable a -> representable b -> representable (fmaximum a b).
Proof. intros Ha Hb; unfold fmaximum; destruct (fltb a b); assumption. Qed.

(** Adding zero, and multiplying by one, changes nothing. *)
Lemma fadd_zero_r (v : Float) : representable v -> fadd v (Fin 0) = v.
Proof.
  destruct v as [|s|x]; simpl; try reflexivity.
  intros Hx. replace (x + 0) with x by lra. apply round_in_range; exact Hx.
Qed.

Lemma fmul_one_representable (v : Float) :
  representable v -> fmul v (Fin 1) = v.
Proof.
  destruct v as [|s|x]; simpl; try reflexivity.
  - intros _. destruct (Reqb 1 0) eqn:E; [apply Reqb_true in E; lra|].
    destruct (Rltb 1 0) eqn:E'; [apply Rltb_true in E'; lra|].
    rewrite xorb_false_r. reflexivity.
  - intros Hx. replace (x * 1) with x by lra. apply round_in_range; exact Hx.
Qed.

(** Zero times a finite number is zero. *)
Lemma fmul_zero_l (v : Float) : finite v -> fmul (Fin 0) v = Fin 0.
Proof.
  intros [x [-> Hx]]; simpl. replace (0 * x) with 0 by lra.
  apply round_in_range. pose proof FLT_MAX_ge_1; lra.
Qed.

Lemma fmul_zero_r (v : Float) : finite v -> fmul v (Fin 0) = Fin 0.
Proof.
  intros [x [-> Hx]]; simpl. replace (x * 0) with 0 by lra.
  apply round_in_range. pose proof FLT_MAX_ge_1; lra.
Qed.

Lemma fabs_zero : fabs (Fin 0) = Fin 0.
Proof. simpl. rewrite Rabs_R0. reflexivity. Qed.

Lemma fmaximum_same (v : Float) : fmaximum v v = v.
Proof. unfold fmaximum; destruct (fltb v v); reflexivity. Qed.

(** Overflow is symmetric: the absolute value commutes with rounding. *)
Lemma fabs_round (z : R) : fabs (round z) = round (Rabs z).
Proof.
  pose proof FLT_MAX_ge_1 as H1. unfold round.
  destruct (Rcase_abs z) as [Hn|Hp].
  - rewrite (Rabs_left z Hn).
    destruct (Rltb FLT_MAX z) eqn:E1; [apply Rltb_true in E1; lra|].
    destruct (Rltb z (- FLT_MAX)) eqn:E2;
      [apply Rltb_true in E2 | apply Rltb_false in E2]; simpl.
    + destruct (Rltb FLT_MAX (- z)) eqn:E3; [reflexivity|].
      apply Rltb_false in E3; lra.
    + destruct (Rltb FLT_MAX (- z)) eqn:E3; [apply Rltb_true in E3; lra|].
      destruct (Rltb (- z) (- FLT_MAX)) eqn:E4; [apply Rltb_true in E4; lra|].
      rewrite (Rabs_left z Hn). reflexivity.
  - rewrite (Rabs_right z Hp).
    destruct (Rltb FLT_MAX z) eqn:E1; [reflexivity|].
    destruct (Rltb z (- FLT_MAX)) eqn:E2; [apply Rltb_true in E2; lra|].
    simpl. rewrite (Rabs_right z Hp). reflexivity.
Qed.

(** The absolute value of a product is the product of the absolute
    values, also when it overflows or is not a number. *)
Lemma fabs_fmul (a b : Float) : fabs (fmul a b) = fmul (fabs a) (fabs b).
Proof.
  destruct a as [|s|x], b as [|s'|y]; simpl; try reflexivity.
  - destruct (Reqb y 0) eqn:E; [apply Reqb_true in E | apply Reqb_false in E].
    + subst y. rewrite Rabs_R0.
      destruct (Reqb 0 0) eqn:E'; [reflexivity|].
      apply Reqb_false in E'; contradiction.
    + pose proof (Rabs_pos_lt y E) as Hy.
      destruct (Reqb (Rabs y) 0) eqn:E'; [apply Reqb_true in E'; lra|].
      destruct (Rltb (Rabs y) 0) eqn:E''; [apply Rltb_true in E''; lra|].
      reflexivity.
  - destruct (Reqb x 0) eqn:E; [apply Reqb_true in E | apply Reqb_false in E].
    + subst x. rewrite Rabs_R0.
      destruct (Reqb 0 0) eqn:E'; [reflexivity|].
      apply Reqb_false in E'; contradiction.
    + pose proof (Rabs_pos_lt x E) as Hx.
      destruct (Reqb (Rabs x) 0) eqn:E'; [apply Reqb_true in E'; lra|].
      destruct (Rltb (Rabs x) 0) eqn:E''; [apply Rltb_true in E''; lra|].
      reflexivity.
  - rewrite fabs_round, Rabs_mult. reflexivity.
Qed.

(** Rounding keeps the order. *)
Lemma round_mono (x y : R) : x <= y -> fleb (round x) (round y) = true.
Proof.
  intros Hxy. pose proof FLT_MAX_ge_1 as H1. unfold round.
  real_cases; simpl; try reflexivity; try lra.
  apply Rleb_true; exact Hxy.
Qed.

(** Adding a non-negative number does not lower a finite one. *)
Lemma fadd_floor (a b : Float) :
  finite a -> nonneg_num b -> fleb a (fadd a b) = true.
Proof.
  intros [x [-> Hx]] [->|[y [-> Hy]]]; cbn [fadd]; [reflexivity|].
  rewrite <- (round_in_range x Hx) at 1. apply round_mono. lra.
Qed.

(** Nor does it lower a non-negative one that may have overflowed. *)
Lemma fadd_floor_nonneg (a b : Float) :
  nonneg_num a -> nonneg_num b -> fleb a (fadd a b) = true.
Proof.
  intros [->|Ha] Hb.
  - destruct Hb as [->|[y [-> Hy]]]; reflexivity.
  - apply fadd_floor; [|exact Hb].
    destruct Ha as [x [-> Hx]]. exists x; split; [reflexivity|].
    pose proof FLT_MAX_ge_1. lra.
Qed.

(** Addition to a finite number keeps the order of the other operand. *)
Lemma fadd_mono_r (a b c : Float) :
  finite a -> nonneg_num b -> fleb b c = true ->
  fleb (fadd a b) (fadd a c) = true.
Proof.
  intros [x [-> Hx]] [->|[y [-> Hy]]] Hbc.
  - destruct c as [|[]|z]; simpl in Hbc; try discriminate. reflexivity.
  - destruct c as [|[]|z]; simpl in Hbc; try discriminate.
    + cbn [fadd]. unfold round.
      destruct (Rltb FLT_MAX (x + y)); [reflexivity|].
      destruct (Rltb (x + y) (- FLT_MAX)); reflexivity.
    + cbn [fadd]. apply round_mono. apply Rleb_true in Hbc. lra.
Qed.

(** The larger of a finite number and a non-negative one is
    non-negative. *)
Lemma fmaximum_floor (a b : Float) :
  finite a -> nonneg_num b -> nonneg_num (fmaximum a b).
Proof.
  intros [x [-> Hx]] Hb. unfold fmaximum.
  destruct (fltb (Fin x) b) eqn:E; [exact Hb|].
  destruct Hb as [->|[y [-> Hy]]]; simpl in E; [discriminate|].
  apply Rltb_false in E. right. exists x; split; [reflexivity | lra].
Qed.

Lemma fmaximum_finite (a b : Float) :
  finite a -> finite b -> finite (fmaximum a b).
Proof. intros Ha Hb; unfold fmaximum; destruct (fltb a b); assumption. Qed.

Lemma finite_not_nan (v : Float) : finite v -> is_nan v = false.
Proof. intros [x [-> _]]; reflexivity. Qed.

Lemma nonneg_not_nan (v : Float) : nonneg_num v -> is_nan v = false.
Proof. intros H; apply nonneg_num_sound; exact H. Qed.

(** The absolute value of a product of finite numbers is a non-negative
    number, whatever the signs. *)
Lemma fabs_fmul_nonneg (a b : Float) :
  finite a -> finite b -> nonneg_num (fabs (fmul a b)).
Proof.
  intros [x [-> Hx]] [y [-> Hy]]. cbn [fmul].
  rewrite fabs_round. apply round_nonneg, Rabs_pos.
Qed.

(** The radiance weight of Mean mode is finite at a finite throughput of
    either sign. *)
Lemma mean_weight_signed (v : Float) :
  finite v -> finite (fadd (Fin (1/2)) (fmul (Fin (1/2)) v)).
Proof.
  intros [x [-> Hx]]; simpl. pose proof FLT_MAX_ge_1 as H1.
  rewrite (round_in_range (1/2 * x)) by lra; simpl.
  rewrite round_in_range by lra.
  exists (1/2 + 1/2 * x); split; [reflexivity | lra].
Qed.

Lemma one_finite : finite (Fin 1).
Proof. exists 1; split; [reflexivity|]. pose proof FLT_MAX_ge_1; lra. Qed.

Lemma zero_finite : finite (Fin 0).
Proof. exists 0; split; [reflexivity|]. pose proof FLT_MAX_ge_1; lra. Qed.

(** ** Arrays of such values *)

Lemma abs_mul_split (a b : Spectrum) :
  dr.abs (dr.mul a b) = dr.mul (dr.abs a) (dr.abs b).
Proof.
  unfold dr.abs, dr.mul.
  revert b; induction a as [|x a IH]; intros [|y b]; simpl; try reflexivity.
  rewrite fabs_fmul, IH. reflexivity.
Qed.

Lemma abs_mul_representable (a b : Spectrum) :
  Forall representable (dr.abs (dr.mul a b)).
Proof.
  unfold dr.abs, dr.mul.
  revert b; induction a as [|x a IH]; intros [|y b]; simpl; constructor;
    [apply fabs_representable, fmul_representable | apply IH].
Qed.

Lemma abs_mul_signed (a b : Spectrum) :
  Forall finite a -> Forall finite b ->
  Forall nonneg_num (dr.abs (dr.mul a b)).
Proof.
  intros Ha Hb. unfold dr.abs, dr.mul.
  apply map_Forall with (A := fun v => nonneg_num (fabs v)); [auto|].
  apply zip_with_Forall with (A := finite) (B := finite);
    auto using fabs_fmul_nonneg.
Qed.

Lemma max_representable (a : Spectrum) :
  Forall representable a -> representable (dr.max a).
Proof.
  intros Ha; destruct a as [|x a]; simpl; [exact I|].
  inversion Ha; subst.
  apply fold_left_closed; auto using fmaximum_representable.
Qed.

Lemma mean_representable (a : Spectrum) : representable (dr.mean a).
Proof. apply fdiv_representable. Qed.

Lemma add_zeros (n : nat) (a : Spectrum) :
  length a = n -> Forall representable a ->
  dr.add a (dr.full n (Fin 0)) = a.
Proof.
  unfold dr.add, dr.full. intros L Ha; subst n.
  induction Ha as [|x a Hx Ha IH]; simpl; [reflexivity|].
  rewrite fadd_zero_r by exact Hx. f_equal. exact IH.
Qed.

Lemma mul_ones (n : nat) (a : Spectrum) :
  length a = n -> Forall representable a ->
  dr.mul a (dr.full n (Fin 1)) = a.
Proof.
  unfold dr.mul, dr.full. intros L Ha; subst n.
  induction Ha as [|x a Hx Ha IH]; simpl; [reflexivity|].
  rewrite fmul_one_representable by exact Hx. f_equal. exact IH.
Qed.

Lemma abs_zeros (n : nat) : dr.abs (dr.full n (Fin 0)) = dr.full n (Fin 0).
Proof.
  unfold dr.abs, dr.full. rewrite map_repeat, fabs_zero. reflexivity.
Qed.

(** An array of zeros times an array of finite numbers is an array of
    zeros, on either side. *)
Lemma zeros_mul (n : nat) (w : Spectrum) :
  length w = n -> Forall finite w ->
  dr.abs (dr.mul (dr.full n (Fin 0)) w) = dr.full n (Fin 0).
Proof.
  unfold dr.abs, dr.mul, dr.full. intros L Hw; subst n.
  induction Hw as [|x w Hx Hw IH]; cbn [map repeat length dr.zip_with];
    [reflexivity|].
  rewrite fmul_zero_l, fabs_zero by exact Hx. f_equal. exact IH.
Qed.

Lemma mul_zeros (n : nat) (a : Spectrum) :
  length a = n -> Forall finite a ->
  dr.abs (dr.mul a (dr.full n (Fin 0))) = dr.full n (Fin 0).
Proof.
  unfold dr.abs, dr.mul, dr.full. intros L Ha; subst n.
  induction Ha as [|x a Hx Ha IH]; cbn [map repeat length dr.zip_with];
    [reflexivity|].
  rewrite fmul_zero_r, fabs_zero by exact Hx. f_equal. exact IH.
Qed.

Lemma fold_maximum_full (n : nat) (x : Float) :
  fold_left fmaximum (repeat x n) x = x.
Proof.
  induction n as [|n IH]; simpl; [reflexivity|].
  rewrite fmaximum_same. exact IH.
Qed.

(** The largest entry of a constant array is the constant. *)
Lemma max_full (n : nat) (x : Float) :
  (0 < n)%nat -> dr.max (dr.full n x) = x.
Proof.
  intros Hn. destruct n as [|n]; [lia|].
  unfold dr.max, dr.full. cbn [repeat]. apply fold_maximum_full.
Qed.

Lemma fold_add_zeros (n : nat) :
  fold_left fadd (repeat (Fin 0) n) (Fin 0) = Fin 0.
Proof.
  induction n as [|n IH]; simpl; [reflexivity|].
  replace (0 + 0) with 0 by lra.
  rewrite round_in_range by (pose proof FLT_MAX_ge_1; lra). exact IH.
Qed.

(** The mean of an array of zeros is zero. *)
Lemma mean_zeros (n : nat) :
  (0 < n)%nat -> dr.mean (dr.full n (Fin 0)) = Fin 0.
Proof.
  intros Hn. destruct n as [|n]; [lia|].
  unfold dr.mean, dr.sum, dr.full, of_size. cbn [repeat].
  rewrite fold_add_zeros. cbn [fdiv].
  assert (Hpos : 0 < INR (length (Fin 0 :: repeat (Fin 0) n)))
    by (apply lt_0_INR; simpl; lia).
  destruct (Reqb _ 0) eqn:E; [apply Reqb_true in E; lra|].
  unfold Rdiv. rewrite Rmult_0_l.
  apply round_in_range. pose proof FLT_MAX_ge_1; lra.
Qed.

(** The radiance weights of the two reducing modes at a finite throughput
    of either sign. *)
Lemma max_weights_signed (T : Spectrum) :
  Forall finite T -> Forall finite (dr.maximum_sv (Fin 1) T).
Proof.
  intros HT. unfold dr.maximum_sv.
  apply map_Forall with (A := finite); [|exact HT].
  intros t Ht. apply fmaximum_finite; [exact one_finite | exact Ht].
Qed.

Lemma mean_weights_signed (T : Spectrum) :
  Forall finite T ->
  Forall finite (dr.add_sv (Fin (1/2)) (dr.mul_sv (Fin (1/2)) T)).
Proof.
  intros HT. unfold dr.add_sv, dr.mul_sv. rewrite map_map.
  apply map_Forall with (A := finite); [|exact HT].
  intros t Ht. apply mean_weight_signed; exact Ht.
Qed.

Lemma max_weights_length (T : Spectrum) :
  length (dr.maximum_sv (Fin 1) T) = length T.
Proof. unfold dr.maximum_sv. apply length_map. Qed.

Lemma mean_weights_length (T : Spectrum) :
  length (dr.add_sv (Fin (1/2)) (dr.mul_sv (Fin (1/2)) T)) = length T.
Proof. unfold dr.add_sv, dr.mul_sv. rewrite !length_map. reflexivity. Qed.

(** At a throughput of at most one the weight of Maximum mode is one. *)
Lemma max_weights_below_one (T : Spectrum) :
  Forall (fun t => fleb t (Fin 1) = true) T ->
  dr.maximum_sv (Fin 1) T = dr.full (length T) (Fin 1).
Proof.
  unfold dr.maximum_sv, dr.full.
  intros HT; induction HT as [|t T Ht HT IH]; simpl; [reflexivity|].
  rewrite IH. f_equal. unfold fmaximum.
  destruct (fltb (Fin 1) t) eqn:E; [|reflexivity].
  apply fltb_not_fleb in E. rewrite E in Ht. discriminate.
Qed.

(** At a throughput of zero the weight of Mean mode is one half. *)
Lemma mean_weights_at_zero (n : nat) :
  dr.add_sv (Fin (1/2)) (dr.mul_sv (Fin (1/2)) (dr.full n (Fin 0)))
  = dr.full n (Fin (1/2)).
Proof.
  unfold dr.add_sv, dr.mul_sv, dr.full. rewrite !map_repeat. f_equal.
  pose proof FLT_MAX_ge_1 as H1. cbn [fmul].
  rewrite round_in_range by lra. cbn [fadd].
  rewrite round_in_range by lra. f_equal. lra.
Qed.

(** ** A medium that does not emit *)

(** X1. Without emission Analog mode returns the coefficients themselves:
    at a radiance of zero on every channel, [prob_s] is [sigma_t] and
    [prob_n] is [sigma_n]. *)
Theorem analog_without_emission
    (channels : nat) (mi : MediumInteraction3f) :
  (0 < channels)%nat ->
  length (sigma_n mi) = channels ->
  Forall representable (sigma_n mi) ->
  medium_probabilities_analog (dr.full channels (Fin 0)) mi
  = (sigma_t mi, sigma_n mi).
Proof.
  intros Hc Ln Hn. unfold medium_probabilities_analog.
  rewrite abs_zeros, mean_zeros by exact Hc.
  unfold dr.maximum_vs, dr.full at 1. rewrite map_repeat, fmaximum_same.
  fold (dr.full channels (Fin 0)).
  rewrite add_zeros by assumption. reflexivity.
Qed.

Lemma analog_without_emission_witness :
  medium_probabilities_analog (dr.full 3 (Fin 0))
    (interaction_with [Fin 1; Fin 1; Fin 1] [Fin 1; Fin 0; Fin 2]
                      [Fin 2; Fin 1; Fin 3] (Fin 0))
  = ([Fin 2; Fin 1; Fin 3], [Fin 1; Fin 0; Fin 2]).
Proof.
  apply (analog_without_emission 3
           (interaction_with [Fin 1; Fin 1; Fin 1] [Fin 1; Fin 0; Fin 2]
                             [Fin 2; Fin 1; Fin 3] (Fin 0)));
    [lia | reflexivity |].
  repeat constructor; unfold in_range, FLT_MAX; lra.
Defined.

(** X2. Without emission the two reducing modes treat [sigma_n] as they
    treat [sigma_t]: at a radiance of zero and a finite throughput, Maximum
    mode returns the largest entry of [|sigma_t * throughput|] and of
    [|sigma_n * throughput|], and Mean mode their means. *)
Theorem reducing_modes_without_emission
    (channels : nat) (mi : MediumInteraction3f) (throughput : Spectrum) :
  (0 < channels)%nat ->
  length throughput = channels ->
  Forall finite throughput ->
  medium_probabilities_max channels (dr.full channels (Fin 0)) mi throughput
  = (dr.full channels (dr.max (dr.abs (dr.mul (sigma_t mi) throughput))),
     dr.full channels (dr.max (dr.abs (dr.mul (sigma_n mi) throughput))))
  /\
  medium_probabilities_mean channels (dr.full channels (Fin 0)) mi throughput
  = (dr.full channels (dr.mean (dr.abs (dr.mul (sigma_t mi) throughput))),
     dr.full channels (dr.mean (dr.abs (dr.mul (sigma_n mi) throughput)))).
Proof.
  intros Hc LT HT.
  unfold medium_probabilities_max, medium_probabilities_mean. split.
  - rewrite zeros_mul
      by (rewrite ?max_weights_length; auto using max_weights_signed).
    rewrite max_full by exact Hc.
    rewrite fadd_zero_r
      by (apply max_representable, abs_mul_representable).
    reflexivity.
  - rewrite zeros_mul
      by (rewrite ?mean_weights_length; auto using mean_weights_signed).
    rewrite mean_zeros by exact Hc.
    rewrite fadd_zero_r by apply mean_representable.
    reflexivity.
Qed.

Lemma reducing_modes_without_emission_witness :
  medium_probabilities_max 3 (dr.full 3 (Fin 0)) rgb_interaction
    [Fin 2; Fin (-4); Fin 1]
  = (dr.full 3 (Fin 8), dr.full 3 (Fin 0))
  /\
  medium_probabilities_mean 3 (dr.full 3 (Fin 0)) rgb_interaction
    [Fin 2; Fin (-4); Fin 1]
  = (dr.full 3 (Fin (13/3)), dr.full 3 (Fin 0)).
Proof.
  destruct (reducing_modes_without_emission 3 rgb_interaction
              [Fin 2; Fin (-4); Fin 1]) as [Hmax Hmean];
    [lia | reflexivity | finite_literals |].
  rewrite Hmax, Hmean. unfold_probabilities.
  split; float_eval; same_values.
Defined.

(** ** Magnitudes only *)

(** X3. Maximum and Mean mode see the radiance through its absolute value
    only: two radiances with the same absolute value on every channel give
    the same probabilities, whatever the other arguments. *)
Theorem reducing_modes_see_absolute_radiance
    (channels : nat) (radiance radiance' : Spectrum)
    (mi : MediumInteraction3f) (throughput : Spectrum) :
  dr.abs radiance = dr.abs radiance' ->
  medium_probabilities_max channels radiance mi throughput
  = medium_probabilities_max channels radiance' mi throughput
  /\
  medium_probabilities_mean channels radiance mi throughput
  = medium_probabilities_mean channels radiance' mi throughput.
Proof.
  intros H. unfold medium_probabilities_max, medium_probabilities_mean.
  rewrite !(abs_mul_split radiance), !(abs_mul_split radiance'), H.
  split; reflexivity.
Qed.

Lemma reducing_modes_see_absolute_radiance_witness :
  medium_probabilities_max 3 [Fin 3; Fin (-1); Fin 0] rgb_interaction
    [Fin 2; Fin 4; Fin 8]
  = medium_probabilities_max 3 [Fin (-3); Fin 1; Fin 0] rgb_interaction
      [Fin 2; Fin 4; Fin 8]
  /\
  medium_probabilities_mean 3 [Fin 3; Fin (-1); Fin 0] rgb_interaction
    [Fin 2; Fin 4; Fin 8]
  = medium_probabilities_mean 3 [Fin (-3); Fin 1; Fin 0] rgb_interaction
      [Fin 2; Fin 4; Fin 8].
Proof.
  apply (reducing_modes_see_absolute_radiance 3 [Fin 3; Fin (-1); Fin 0]
           [Fin (-3); Fin 1; Fin 0] rgb_interaction [Fin 2; Fin 4; Fin 8]).
  float_eval; same_values.
Defined.

(** X4. In Maximum and Mean mode [prob_s] depends on the throughput
    through its absolute value only, and not on the radiance: two
    throughputs with the same absolute value on every channel give the same
    [prob_s], whatever the two radiances. *)
Theorem scattering_probability_sees_absolute_throughput
    (channels : nat) (radiance radiance' : Spectrum)
    (mi : MediumInteraction3f) (throughput throughput' : Spectrum) :
  dr.abs throughput = dr.abs throughput' ->
  fst (medium_probabilities_max channels radiance mi throughput)
  = fst (medium_probabilities_max channels radiance' mi throughput')
  /\
  fst (medium_probabilities_mean channels radiance mi throughput)
  = fst (medium_probabilities_mean channels radiance' mi throughput').
Proof.
  intros H. unfold medium_probabilities_max, medium_probabilities_mean.
  cbn [fst].
  rewrite (abs_mul_split (sigma_t mi) throughput),
    (abs_mul_split (sigma_t mi) throughput'), H.
  split; reflexivity.
Qed.

Lemma scattering_probability_sees_absolute_throughput_witness :
  fst (medium_probabilities_max 3 [Fin 3; Fin 0; Fin 0] rgb_interaction
         [Fin 2; Fin (-4); Fin 8])
  = fst (medium_probabilities_max 3 [Fin 0; Fin 5; Fin 0] rgb_interaction
           [Fin (-2); Fin 4; Fin 8])
  /\
  fst (medium_probabilities_mean 3 [Fin 3; Fin 0; Fin 0] rgb_interaction
         [Fin 2; Fin (-4); Fin 8])
  = fst (medium_probabilities_mean 3 [Fin 0; Fin 5; Fin 0] rgb_interaction
           [Fin (-2); Fin 4; Fin 8]).
Proof.
  apply (scattering_probability_sees_absolute_throughput 3
           [Fin 3; Fin 0; Fin 0] [Fin 0; Fin 5; Fin 0] rgb_interaction
           [Fin 2; Fin (-4); Fin 8] [Fin (-2); Fin 4; Fin 8]).
  float_eval; same_values.
Defined.

(** ** Emission raises the probability of a null event *)

(** The mean of the absolute radiance is a non-negative number. *)
Lemma mean_abs_nonneg (radiance : Spectrum) :
  radiance <> [] -> Forall finite radiance ->
  nonneg_num (dr.mean (dr.abs radiance)).
Proof.
  intros Hne Hr. apply mean_nonneg.
  - destruct radiance; [contradiction | discriminate].
  - unfold dr.abs. apply map_Forall with (A := finite); [|exact Hr].
    intros v Hv. apply finite_nonneg_num, fabs_finite, Hv.
Qed.

(** Entry [i] of [prob_n] in Analog mode. *)
Lemma analog_null_entry
    (radiance : Spectrum) (mi : MediumInteraction3f) (i : nat) :
  (i < length radiance)%nat -> (i < length (sigma_n mi))%nat ->
  nth i (snd (medium_probabilities_analog radiance mi)) NaN
  = fadd (nth i (sigma_n mi) NaN)
         (fmaximum (nth i radiance NaN) (dr.mean (dr.abs radiance))).
Proof.
  intros Hr Hn. unfold medium_probabilities_analog; cbn [snd].
  unfold dr.add, dr.maximum_vs.
  rewrite zip_with_nth by (rewrite ?length_map; lia).
  rewrite map_nth_in by lia. reflexivity.
Qed.

Lemma nth_finite (a : Spectrum) (i : nat) :
  Forall finite a -> (i < length a)%nat -> finite (nth i a NaN).
Proof. intros Ha Hi. apply Forall_nth; assumption. Qed.

(** X5. In Analog mode emission does not lower the probability of a null
    event: for finite radiance and [sigma_n] of either sign, [prob_n] is on
    every channel at least [sigma_n] plus the mean absolute radiance, which
    is at least [sigma_n]. *)
Theorem analog_emission_floor
    (channels : nat) (radiance : Spectrum) (mi : MediumInteraction3f) :
  length radiance = channels ->
  length (sigma_n mi) = channels ->
  Forall finite radiance ->
  Forall finite (sigma_n mi) ->
  forall i, (i < channels)%nat ->
    let prob_n := snd (medium_probabilities_analog radiance mi) in
    let floor := fadd (nth i (sigma_n mi) NaN) (dr.mean (dr.abs radiance)) in
    fleb (nth i (sigma_n mi) NaN) floor = true /\
    fleb floor (nth i prob_n NaN) = true /\
    fleb (nth i (sigma_n mi) NaN) (nth i prob_n NaN) = true.
Proof.
  intros Lr Ln Hr Hn i Hi. cbv zeta.
  rewrite analog_null_entry by lia.
  assert (Hne : radiance <> [])
    by (intros E; rewrite E in Lr; simpl in Lr; lia).
  pose proof (mean_abs_nonneg radiance Hne Hr) as Hm.
  assert (Hs : finite (nth i (sigma_n mi) NaN))
    by (apply nth_finite; [exact Hn | lia]).
  assert (Hx : finite (nth i radiance NaN))
    by (apply nth_finite; [exact Hr | lia]).
  assert (H1 : fleb (nth i (sigma_n mi) NaN)
                 (fadd (nth i (sigma_n mi) NaN) (dr.mean (dr.abs radiance)))
               = true)
    by (apply fadd_floor; assumption).
  assert (H2 : fleb (fadd (nth i (sigma_n mi) NaN) (dr.mean (dr.abs radiance)))
                 (fadd (nth i (sigma_n mi) NaN)
                    (fmaximum (nth i radiance NaN) (dr.mean (dr.abs radiance))))
               = true).
  { apply fadd_mono_r; [exact Hs | exact Hm |].
    apply fmaximum_bounds; auto using finite_not_nan, nonneg_not_nan. }
  repeat split; [exact H1 | exact H2 | eapply fleb_trans; eassumption].
Qed.

Lemma analog_emission_floor_witness :
  fleb (Fin 1) (nth 1 (snd (medium_probabilities_analog
                              [Fin 3; Fin (-3); Fin 0]
                              (interaction_with [Fin 1; Fin 1; Fin 1]
                                 [Fin 1; Fin 1; Fin 2] [Fin 2; Fin 2; Fin 3]
                                 (Fin 0)))) NaN) = true.
Proof.
  apply (analog_emission_floor 3 [Fin 3; Fin (-3); Fin 0]
           (interaction_with [Fin 1; Fin 1; Fin 1] [Fin 1; Fin 1; Fin 2]
              [Fin 2; Fin 2; Fin 3] (Fin 0)) eq_refl eq_refl
           ltac:(finite_literals) ltac:(finite_literals) 1%nat ltac:(lia)).
Defined.

(** With a channel to reduce over, the largest entry and the mean of
    [|a * b|] are non-negative numbers, whatever the signs in [a] and [b]. *)
Lemma reduced_signed (channels : nat) (a b : Spectrum) :
  length a = channels -> length b = channels ->
  Forall finite a -> Forall finite b ->
  (0 < channels)%nat ->
  nonneg_num (dr.max (dr.abs (dr.mul a b))) /\
  nonneg_num (dr.mean (dr.abs (dr.mul a b))).
Proof.
  intros La Lb Ha Hb Hc.
  assert (Hne : dr.abs (dr.mul a b) <> []).
  { intros E. pose proof (abs_mul_length channels a b La Lb) as L.
    rewrite E in L. simpl in L. lia. }
  split; [apply max_nonneg | apply mean_nonneg];
    auto using abs_mul_signed.
Qed.

(** X6. In Maximum and Mean mode emission does not lower the probability
    of a null event: for finite inputs of either sign, [prob_n] is on every
    channel at least the term of [sigma_n] alone, the largest entry (the
    mean) of [|sigma_n * throughput|]. *)
Theorem reducing_modes_emission_floor
    (channels : nat) (radiance : Spectrum) (mi : MediumInteraction3f)
    (throughput : Spectrum) :
  length radiance = channels ->
  length (sigma_n mi) = channels ->
  length throughput = channels ->
  Forall finite radiance ->
  Forall finite (sigma_n mi) ->
  Forall finite throughput ->
  Forall (fun v =>
            fleb (dr.max (dr.abs (dr.mul (sigma_n mi) throughput))) v = true)
         (snd (medium_probabilities_max channels radiance mi throughput))
  /\
  Forall (fun v =>
            fleb (dr.mean (dr.abs (dr.mul (sigma_n mi) throughput))) v = true)
         (snd (medium_probabilities_mean channels radiance mi throughput)).
Proof.
  intros Lr Ln LT Hr Hn HT.
  unfold medium_probabilities_max, medium_probabilities_mean; cbn [snd].
  destruct channels as [|k]; [split; constructor|].
  assert (Hc : (0 < S k)%nat) by lia.
  split; apply full_Forall; apply fadd_floor_nonneg.
  - apply (reduced_signed (S k)); assumption.
  - apply (reduced_signed (S k)); auto using max_weights_signed.
    rewrite max_weights_length; exact LT.
  - apply (reduced_signed (S k)); assumption.
  - apply (reduced_signed (S k)); auto using mean_weights_signed.
    rewrite mean_weights_length; exact LT.
Qed.

Lemma reducing_modes_emission_floor_witness :
  Forall (fun v =>
            fleb (dr.max (dr.abs (dr.mul [Fin 1; Fin 0; Fin 2]
                                         [Fin 2; Fin (-4); Fin 1]))) v = true)
         (snd (medium_probabilities_max 3 [Fin 3; Fin (-3); Fin 0]
                 (interaction_with [Fin 1; Fin 1; Fin 1] [Fin 1; Fin 0; Fin 2]
                    [Fin 2; Fin 1; Fin 3] (Fin 0))
                 [Fin 2; Fin (-4); Fin 1]))
  /\
  Forall (fun v =>
            fleb (dr.mean (dr.abs (dr.mul [Fin 1; Fin 0; Fin 2]
                                          [Fin 2; Fin (-4); Fin 1]))) v = true)
         (snd (medium_probabilities_mean 3 [Fin 3; Fin (-3); Fin 0]
                 (interaction_with [Fin 1; Fin 1; Fin 1] [Fin 1; Fin 0; Fin 2]
                    [Fin 2; Fin 1; Fin 3] (Fin 0))
                 [Fin 2; Fin (-4); Fin 1])).
Proof.
  apply (reducing_modes_emission_floor 3 [Fin 3; Fin (-3); Fin 0]
           (interaction_with [Fin 1; Fin 1; Fin 1] [Fin 1; Fin 0; Fin 2]
              [Fin 2; Fin 1; Fin 3] (Fin 0))
           [Fin 2; Fin (-4); Fin 1]);
    try reflexivity; finite_literals.
Defined.

(** ** Values of either sign *)

(** X7. The sign of the inputs does not matter to Maximum and Mean mode:
    finite radiance, coefficients and throughput of either sign give
    probabilities that are at least zero and are not [NaN] on every channel.
    In Analog mode the same holds of [prob_n] for finite radiance of either
    sign, as soon as [sigma_n] is not negative. *)
Theorem signed_inputs_give_probabilities
    (channels : nat) (radiance : Spectrum) (mi : MediumInteraction3f)
    (throughput : Spectrum) :
  length radiance = channels ->
  length (sigma_t mi) = channels ->
  length (sigma_n mi) = channels ->
  length throughput = channels ->
  Forall finite radiance ->
  Forall finite (sigma_t mi) ->
  Forall finite (sigma_n mi) ->
  Forall finite throughput ->
  probabilities_ok channels
    (medium_probabilities_max channels radiance mi throughput) /\
  probabilities_ok channels
    (medium_probabilities_mean channels radiance mi throughput) /\
  (Forall finite_nonneg (sigma_n mi) ->
   length (snd (medium_probabilities_analog radiance mi)) = channels /\
   Forall probability_ok (snd (medium_probabilities_analog radiance mi))).
Proof.
  intros Lr Lt Ln LT Hr Ht Hn HT.
  pose proof (max_weights_signed throughput HT) as Wx.
  pose proof (mean_weights_signed throughput HT) as We.
  pose proof (max_weights_length throughput) as Lx.
  pose proof (mean_weights_length throughput) as Le.
  rewrite LT in Lx, Le.
  split; [|split].
  - unfold probabilities_ok, medium_probabilities_max; cbn [fst snd].
    split; apply full_ok; intros Hc.
    + apply (reduced_signed channels); assumption.
    + apply fadd_nonneg; apply (reduced_signed channels); assumption.
  - unfold probabilities_ok, medium_probabilities_mean; cbn [fst snd].
    split; apply full_ok; intros Hc.
    + apply (reduced_signed channels); assumption.
    + apply fadd_nonneg; apply (reduced_signed channels); assumption.
  - intros Hpos. unfold medium_probabilities_analog; cbn [snd].
    unfold dr.add, dr.maximum_vs. split.
    + rewrite zip_with_length, length_map, Lr, Ln. apply Nat.min_id.
    + apply nonneg_all_ok.
      apply zip_with_Forall with (A := nonneg_num) (B := nonneg_num);
        [exact fadd_nonneg | apply finite_all_nonneg, Hpos |].
      destruct radiance as [|r0 rs] eqn:Er; [constructor|].
      rewrite <- Er in *.
      apply map_Forall with (A := finite); [|exact Hr].
      intros x Hx. apply fmaximum_floor; [exact Hx|].
      apply mean_abs_nonneg; [rewrite Er; discriminate | exact Hr].
Qed.

Lemma signed_inputs_give_probabilities_witness :
  probabilities_ok 3
    (medium_probabilities_max 3 [Fin 3; Fin (-3); Fin 0] rgb_interaction
       [Fin 2; Fin (-4); Fin 1]) /\
  probabilities_ok 3
    (medium_probabilities_mean 3 [Fin 3; Fin (-3); Fin 0] rgb_interaction
       [Fin 2; Fin (-4); Fin 1]) /\
  Forall probability_ok
    (snd (medium_probabilities_analog [Fin 3; Fin (-3); Fin 0]
            rgb_interaction)).
Proof.
  destruct (signed_inputs_give_probabilities 3 [Fin 3; Fin (-3); Fin 0]
              rgb_interaction [Fin 2; Fin (-4); Fin 1])
    as (Hmax & Hmean & Hanalog);
    try reflexivity; try finite_literals.
  repeat split; try apply Hmax; try apply Hmean.
  apply Hanalog. finite_literals.
Defined.

(** ** Throughput at the ends of its range *)

(** X8. In Maximum mode a throughput of at most one on every channel
    leaves the emission unweighted: [prob_n] is the largest entry of
    [|sigma_n * throughput|] plus the largest entry of [|radiance|]. *)
Theorem maximum_emission_unweighted_below_one
    (channels : nat) (radiance : Spectrum) (mi : MediumInteraction3f)
    (throughput : Spectrum) :
  length radiance = channels ->
  length throughput = channels ->
  Forall representable radiance ->
  Forall (fun t => fleb t (Fin 1) = true) throughput ->
  snd (medium_probabilities_max channels radiance mi throughput)
  = dr.full channels
      (fadd (dr.max (dr.abs (dr.mul (sigma_n mi) throughput)))
            (dr.max (dr.abs radiance))).
Proof.
  intros Lr LT Hr HT. unfold medium_probabilities_max; cbn [snd].
  rewrite max_weights_below_one by exact HT.
  rewrite LT, mul_ones by assumption. reflexivity.
Qed.

Lemma maximum_emission_unweighted_below_one_witness :
  snd (medium_probabilities_max 3 [Fin 3; Fin (-5); Fin 0]
         (interaction_with [Fin 1; Fin 1; Fin 1] [Fin 1; Fin 0; Fin 2]
            [Fin 2; Fin 1; Fin 3] (Fin 0))
         [Fin 1; Fin (1/2); Fin 0])
  = dr.full 3 (Fin 6).
Proof.
  rewrite (maximum_emission_unweighted_below_one 3 [Fin 3; Fin (-5); Fin 0]
             (interaction_with [Fin 1; Fin 1; Fin 1] [Fin 1; Fin 0; Fin 2]
                [Fin 2; Fin 1; Fin 3] (Fin 0))
             [Fin 1; Fin (1/2); Fin 0] eq_refl eq_refl).
  - unfold interaction_with; cbn [sigma_n]. float_eval; same_values.
  - repeat constructor; unfold in_range, FLT_MAX; lra.
  - repeat constructor; cbn [fleb]; apply Rleb_true; lra.
Defined.

(** X9. At a throughput of zero on every channel, and finite coefficients,
    the two reducing modes return [prob_s = 0], and for [prob_n] what the
    emission alone gives: the largest entry of [|radiance|] in Maximum mode
    and the mean of [|radiance * 0.5|] in Mean mode.  Without emission both
    probabilities are zero, and nothing is left to normalise. *)
Theorem probabilities_at_zero_throughput
    (channels : nat) (radiance : Spectrum) (mi : MediumInteraction3f) :
  (0 < channels)%nat ->
  length radiance = channels ->
  length (sigma_t mi) = channels ->
  length (sigma_n mi) = channels ->
  Forall representable radiance ->
  Forall finite (sigma_t mi) ->
  Forall finite (sigma_n mi) ->
  let dark := dr.full channels (Fin 0) in
  medium_probabilities_max channels radiance mi dark
  = (dark, dr.full channels (dr.max (dr.abs radiance))) /\
  medium_probabilities_mean channels radiance mi dark
  = (dark,
     dr.full channels
       (dr.mean (dr.abs (dr.mul radiance (dr.full channels (Fin (1/2))))))) /\
  medium_probabilities_max channels dark mi dark = (dark, dark) /\
  medium_probabilities_mean channels dark mi dark = (dark, dark).
Proof.
  intros Hc Lr Lt Ln Hr Ht Hn. cbv zeta.
  assert (Hz : Forall (fun t => fleb t (Fin 1) = true)
                 (dr.full channels (Fin 0))).
  { apply full_Forall. cbn [fleb]. apply Rleb_true; lra. }
  assert (Hfz : Forall finite (dr.full channels (Fin 0)))
    by (apply full_Forall, zero_finite).
  assert (Hmax : forall L, length L = channels -> Forall representable L ->
            medium_probabilities_max channels L mi (dr.full channels (Fin 0))
            = (dr.full channels (Fin 0),
               dr.full channels (dr.max (dr.abs L)))).
  { intros L LL HL. unfold medium_probabilities_max.
    rewrite !mul_zeros, max_full by assumption.
    rewrite max_weights_below_one by exact Hz.
    rewrite full_length, mul_ones by assumption.
    destruct (dr.max (dr.abs L)) as [|s|x] eqn:E; cbn [fadd];
      try reflexivity.
    assert (Hx : representable (dr.max (dr.abs L))).
    { apply max_representable. unfold dr.abs.
      apply map_Forall with (A := representable);
        [exact fabs_representable | exact HL]. }
    rewrite E in Hx. replace (0 + x) with x by lra.
    rewrite round_in_range by exact Hx. reflexivity. }
  assert (Hmean : forall L, length L = channels ->
            medium_probabilities_mean channels L mi (dr.full channels (Fin 0))
            = (dr.full channels (Fin 0),
               dr.full channels
                 (dr.mean (dr.abs (dr.mul L
                                     (dr.full channels (Fin (1/2)))))))).
  { intros L LL. unfold medium_probabilities_mean.
    rewrite !mul_zeros, mean_zeros by assumption.
    rewrite mean_weights_at_zero.
    destruct (dr.mean _) as [|s|x] eqn:E; cbn [fadd]; try reflexivity.
    assert (Hx : representable
                   (dr.mean (dr.abs (dr.mul L (dr.full channels (Fin (1/2)))))))
      by apply mean_representable.
    rewrite E in Hx. replace (0 + x) with x by lra.
    rewrite round_in_range by exact Hx. reflexivity. }
  assert (Lz : length (dr.full channels (Fin 0)) = channels)
    by apply full_length.
  assert (Hrz : Forall representable (dr.full channels (Fin 0)))
    by (apply full_Forall, finite_representable, zero_finite).
  split; [apply Hmax; assumption|].
  split; [apply Hmean; assumption|].
  split.
  - rewrite Hmax by assumption.
    rewrite abs_zeros, max_full by exact Hc. reflexivity.
  - rewrite Hmean by assumption.
    assert (Hh : Forall finite (dr.full channels (Fin (1/2)))).
    { apply full_Forall. exists (1/2); split; [reflexivity|].
      pose proof FLT_MAX_ge_1; lra. }
    rewrite zeros_mul by (try apply full_length; exact Hh).
    rewrite mean_zeros by exact Hc. reflexivity.
Qed.

Lemma probabilities_at_zero_throughput_witness :
  medium_probabilities_max 3 [Fin 3; Fin (-5); Fin 1] rgb_interaction
    (dr.full 3 (Fin 0))
  = (dr.full 3 (Fin 0), dr.full 3 (Fin 5)) /\
  medium_probabilities_mean 3 [Fin 3; Fin (-5); Fin 1] rgb_interaction
    (dr.full 3 (Fin 0))
  = (dr.full 3 (Fin 0), dr.full 3 (Fin (3/2))).
Proof.
  destruct (probabilities_at_zero_throughput 3 [Fin 3; Fin (-5); Fin 1]
              rgb_interaction) as (Hmax & Hmean & _);
    try reflexivity; try lia; try finite_literals;
    try (repeat constructor; unfold in_range, FLT_MAX; lra).
  rewrite Hmax, Hmean. split; float_eval; same_values.
Defined.
